(** * wtf.analysis.db.ZoneIndex: the zone index and its scope-tree construction

    A shallow embedding of [src/wtf/analysis/db/zoneindex.js].  JavaScript
    objects that the index mutates (scopes, and the [scope] field of events)
    live in an explicit store, addressed by object identity; the index itself
    is a record threaded through its three batch operations. *)

From Stdlib Require Import ZArith List Lia Permutation.
From stdpp Require Import base option list gmap sorting strings.

(** ** Object identities

    Zones, event types, events and scopes are JavaScript objects compared by
    reference ([==]); each is represented by a number standing for its
    identity. *)

Abbreviation Zone := nat.
Abbreviation EventType := nat.
Abbreviation EventRef := nat.
Abbreviation ScopeRef := nat.

(** ** Events

    The fields of an event that the index only reads.  [ownScope e = Some s]
    stands for [e instanceof wtf.analysis.ScopeEvent], [s] being the scope
    that the enter event carries in [e.scope]: that field of a ScopeEvent is
    never written by the index ([setScope] is only reached on the other two
    branches), so it travels with the event.  For every other event the
    [scope] field is mutable and is kept in the store below.  Timestamps are
    JavaScript numbers that the index only compares with [<]; they are taken
    in [Z]. *)

Record Event := mkEvent {
  eid : EventRef;
  zone : Zone;
  time : Z;
  eventType : EventType;
  ownScope : option ScopeRef
}.

#[global] Instance Event_eq_dec : EqDecision Event.
Proof. solve_decision. Defined.

(** ** Scopes and the store *)

Record Scope := mkScope {
  parent_ : option ScopeRef;
  children_ : list ScopeRef;
  leaveEvent_ : option Event
}.

Record Heap := mkHeap {
  scopes : gmap nat Scope;
  eventScope : gmap nat nat
}.

(** A scope object that nobody has written to yet. *)
Definition blankScope : Scope := mkScope None [] None.

Definition getScope (h : Heap) (s : ScopeRef) : Scope :=
  default blankScope (scopes h !! s).

Definition putScope (s : ScopeRef) (o : Scope) (h : Heap) : Heap :=
  mkHeap (<[s := o]> (scopes h)) (eventScope h).

(** Modelled from the spec: wtf.analysis.Scope is not part of the sources at
    hand.  [addChild(scope)] "appends scope to this scope's child sequence and
    sets its parent back-reference"; the two writes are sequenced so that a
    scope added to itself sees both. *)
Definition Scope_addChild (this child : ScopeRef) (h : Heap) : Heap :=
  let o := getScope h this in
  let h1 := putScope this
              (mkScope (parent_ o) (children_ o ++ [child]) (leaveEvent_ o)) h in
  let c := getScope h1 child in
  putScope child (mkScope (Some this) (children_ c) (leaveEvent_ c)) h1.

(** Modelled from the spec: [setLeaveEvent(event)] "records the closing event
    for this scope" (a second call silently overwrites). *)
Definition Scope_setLeaveEvent (this : ScopeRef) (e : Event) (h : Heap) : Heap :=
  let o := getScope h this in
  putScope this (mkScope (parent_ o) (children_ o) (Some e)) h.

(** Modelled from the spec: [getParent()] "returns the parent, or none if this
    is a top-level scope within the zone". *)
Definition Scope_getParent (this : ScopeRef) (h : Heap) : option ScopeRef :=
  parent_ (getScope h this).

(** Modelled from the spec: wtf.analysis.Event is not part of the sources at
    hand; an event has "a mutable scope association set by the index".
    Writing [null] leaves the field empty. *)
Definition Event_setScope (e : Event) (v : option ScopeRef) (h : Heap) : Heap :=
  mkHeap (scopes h)
         (match v with
          | Some s => <[eid e := s]> (eventScope h)
          | None => delete (eid e) (eventScope h)
          end).

(** Reading [e.scope]. *)
Definition Event_scope (h : Heap) (e : Event) : option ScopeRef :=
  match ownScope e with
  | Some s => Some s
  | None => eventScope h !! eid e
  end.

(** ** The base class

    wtf.analysis.db.EventList is not part of the sources at hand, so the index
    is written over an interface for it. *)

(** Modelled from the spec: the operations of EventList that the index calls
    (section 4.1): the three batch hooks, [getLastEventTime()] and
    [findEnclosingScope(time)], the lookup of "the scope that structurally
    encloses this event's timestamp within already-committed zone data".
    [EventList_events] is the stored sequence.  The base operations do not
    write to scopes or to the [scope] field of events. *)
Class EventListBase (EL : Type) := {
  EventList_events : EL → list Event;
  EventList_beginInserting : EL → EL;
  EventList_insertEvent : Event → EL → EL;
  EventList_endInserting : EL → EL;
  EventList_getLastEventTime : EL → Z;
  EventList_findEnclosingScope : Heap → EL → Z → option ScopeRef
}.

(** Modelled from the spec: the storage contract of section 4.1.  The list is
    "an append-only, time-ordered sequence of events with batch-insert
    lifecycle hooks"; [insertEvent(e)] is to "append one event";
    [endInserting()] is to "finalize the batch", which may reorder the
    sequence but keeps its events. *)
Class EventListStorage (EL : Type) `{!EventListBase EL} : Prop := {
  EventList_beginInserting_events b :
    EventList_events (EventList_beginInserting b) = EventList_events b;
  EventList_insertEvent_events e b :
    EventList_events (EventList_insertEvent e b) = EventList_events b ++ [e];
  EventList_endInserting_events b :
    EventList_events (EventList_endInserting b) ≡ₚ EventList_events b
}.

(** ** The index *)

Record ZoneIndex (EL : Type) := mkZoneIndex {
  base : EL;
  zone_ : Zone;
  eventTypes_scopeLeave : EventType;
  currentScope_ : option ScopeRef;
  lastAddEventTime_ : Z;
  pendingOutOfOrderEvents_ : list Event
}.
Arguments mkZoneIndex {EL}.
Arguments base {EL}.
Arguments zone_ {EL}.
Arguments eventTypes_scopeLeave {EL}.
Arguments currentScope_ {EL}.
Arguments lastAddEventTime_ {EL}.
Arguments pendingOutOfOrderEvents_ {EL}.

Section ZoneIndex.
Context {EL : Type} `{!EventListBase EL}.

Definition set_base (b : EL) (this : ZoneIndex EL) : ZoneIndex EL :=
  mkZoneIndex b (zone_ this) (eventTypes_scopeLeave this)
              (currentScope_ this) (lastAddEventTime_ this)
              (pendingOutOfOrderEvents_ this).

Definition set_currentScope (c : option ScopeRef) (this : ZoneIndex EL)
  : ZoneIndex EL :=
  mkZoneIndex (base this) (zone_ this) (eventTypes_scopeLeave this)
              c (lastAddEventTime_ this) (pendingOutOfOrderEvents_ this).

Definition set_lastAddEventTime (t : Z) (this : ZoneIndex EL) : ZoneIndex EL :=
  mkZoneIndex (base this) (zone_ this) (eventTypes_scopeLeave this)
              (currentScope_ this) t (pendingOutOfOrderEvents_ this).

Definition set_pending (l : list Event) (this : ZoneIndex EL) : ZoneIndex EL :=
  mkZoneIndex (base this) (zone_ this) (eventTypes_scopeLeave this)
              (currentScope_ this) (lastAddEventTime_ this) l.

(** The constructor: [goog.base(this)] yields the base part [b]; the cached
    leave type is what the trace listener returns for ['wtf.scope.leave']. *)
Definition new_ZoneIndex (b : EL) (scopeLeave : EventType) (zone : Zone)
  : ZoneIndex EL :=
  mkZoneIndex b zone scopeLeave None 0%Z [].

Definition getZone (this : ZoneIndex EL) : Zone := zone_ this.

(** [beginInserting]: the base call comes first, then the two resets; the
    last event time is read from the base after its own [beginInserting]. *)
Definition beginInserting (this : ZoneIndex EL) : ZoneIndex EL :=
  let this1 := set_base (EventList_beginInserting (base this)) this in
  let this2 := set_currentScope None this1 in
  set_lastAddEventTime (EventList_getLastEventTime (base this2)) this2.

(** The in-order branch of [insertEvent]: the [else] of the out-of-order
    test. *)
Definition insertEvent_inOrder (e : Event) (st : Heap * ZoneIndex EL)
  : Heap * ZoneIndex EL :=
  let '(h, this) := st in
  let this := set_lastAddEventTime (time e) this in
  match ownScope e with
  | Some s =>
      (* Scope enter event. *)
      let h := match currentScope_ this with
               | Some c => Scope_addChild c s h
               | None => h
               end in
      (h, set_currentScope (Some s) this)
  | None =>
      if eventType e =? eventTypes_scopeLeave this then
        (* Scope leave event. *)
        let h := Event_setScope e (currentScope_ this) h in
        match currentScope_ this with
        | Some c =>
            let h := Scope_setLeaveEvent c e h in
            (h, set_currentScope (Scope_getParent c h) this)
        | None => (h, this)
        end
      else
        (* Attach the event to the current scope. *)
        match currentScope_ this with
        | Some c => (Event_setScope e (Some c) h, this)
        | None => (h, this)
        end
  end.

(** The zone-specific part of [insertEvent], for an event of this zone:
    everything between the zone test and the base call. *)
Definition insertEvent_classify (e : Event) (st : Heap * ZoneIndex EL)
  : Heap * ZoneIndex EL :=
  if (time e <? lastAddEventTime_ (snd st))%Z then
    (* Event is out of order - add to the pending list. *)
    (fst st,
     set_pending (pendingOutOfOrderEvents_ (snd st) ++ [e]) (snd st))
  else
    insertEvent_inOrder e st.

Definition insertEvent (e : Event) (st : Heap * ZoneIndex EL)
  : Heap * ZoneIndex EL :=
  if zone e =? zone_ (snd st) then
    let '(h, this) := insertEvent_classify e st in
    (h, set_base (EventList_insertEvent e (base this)) this)
  else st.

(** One iteration of the loop of [endInserting]; the second component of the
    state is the local variable [currentScope] of that function. *)
Definition endInserting_step (this : ZoneIndex EL)
    (st : Heap * option ScopeRef) (e : Event) : Heap * option ScopeRef :=
  let '(h, currentScope) := st in
  match ownScope e with
  | Some s =>
      let h := match EventList_findEnclosingScope h (base this) (time e) with
               | Some parentScope => Scope_addChild parentScope s h
               | None => h
               end in
      (h, Some s)
  | None =>
      if eventType e =? eventTypes_scopeLeave this then
        let h := Event_setScope e currentScope h in
        match currentScope with
        | Some c => (Scope_setLeaveEvent c e h, None)
        | None => (h, None)
        end
      else
        (Event_setScope e currentScope h, currentScope)
  end.

Definition endInserting (st : Heap * ZoneIndex EL) : Heap * ZoneIndex EL :=
  let '(h, this) := st in
  let this := set_currentScope None this in
  let '(h, _) := fold_left (endInserting_step this)
                           (pendingOutOfOrderEvents_ this) (h, None) in
  let this := set_pending [] this in
  (h, set_base (EventList_endInserting (base this)) this).

(** A whole batch: [beginInserting], the events in the order given, then
    [endInserting]. *)
Definition insertEvents (es : list Event) (st : Heap * ZoneIndex EL)
  : Heap * ZoneIndex EL :=
  fold_left (fun st e => insertEvent e st) es st.

Definition runBatch (es : list Event) (st : Heap * ZoneIndex EL)
  : Heap * ZoneIndex EL :=
  endInserting (insertEvents es (fst st, beginInserting (snd st))).

End ZoneIndex.

(** ** A list-backed EventList

    Used to run the index on concrete batches. *)

Record EventList := mkEventList {
  events_ : list Event;
  lastEventTime_ : Z
}.

Definition Event_comparer (a b : Event) : Prop := (time a ≤ time b)%Z.

#[global] Instance Event_comparer_dec : RelDecision Event_comparer.
Proof. intros a b. unfold Event_comparer. apply _. Defined.

(** Modelled from the spec: a scope encloses time [t] when its enter event is
    at or before [t] and its recorded leave event is at or after [t] ("a
    Scope's children's time ranges are nested within the parent's
    [enter.time, leave.time] range"). *)
Definition enclosingScopeOf (h : Heap) (t : Z) (e : Event) : option ScopeRef :=
  match ownScope e with
  | Some s =>
      match leaveEvent_ (getScope h s) with
      | Some l => if ((time e <=? t) && (t <=? time l))%Z then Some s else None
      | None => None
      end
  | None => None
  end.

Module ListEventList.

(** Modelled from the spec: "enter batch-insert mode". *)
Definition beginInserting (b : EventList) : EventList := b.

(** Modelled from the spec: "append one event, called in any order within a
    batch". *)
Definition insertEvent (e : Event) (b : EventList) : EventList :=
  mkEventList (events_ b ++ [e]) (lastEventTime_ b).

(** Modelled from the spec: "finalize the batch": the sequence is put back
    in time order and the last event time is refreshed, so that
    [getLastEventTime] stays the "last time present before the current batch
    started" during the next batch. *)
Definition endInserting (b : EventList) : EventList :=
  let l := merge_sort Event_comparer (events_ b) in
  mkEventList l (from_option time (lastEventTime_ b) (last l)).

(** Modelled from the spec: the "last time present before the current batch
    started". *)
Definition getLastEventTime (b : EventList) : Z := lastEventTime_ b.

(** Modelled from the spec: the latest stored scope-enter event whose scope
    encloses [t]. *)
Definition findEnclosingScope (h : Heap) (b : EventList) (t : Z)
  : option ScopeRef :=
  last (omap (enclosingScopeOf h t) (events_ b)).

End ListEventList.

#[global] Instance ListEventList_base : EventListBase EventList := {
  EventList_events := events_;
  EventList_beginInserting := ListEventList.beginInserting;
  EventList_insertEvent := ListEventList.insertEvent;
  EventList_endInserting := ListEventList.endInserting;
  EventList_getLastEventTime := ListEventList.getLastEventTime;
  EventList_findEnclosingScope := ListEventList.findEnclosingScope
}.

Definition emptyHeap : Heap := mkHeap ∅ ∅.

(** A freshly constructed index for zone [1], the leave type being [7]. *)
Definition freshIndex : ZoneIndex EventList :=
  new_ZoneIndex (mkEventList [] 0%Z) 7 1.

(** ** Sample events

    All of zone [1] unless said otherwise; [7] is the leave type, scopes are
    [10] (A) and [11] (B). *)

Definition enterA : Event := mkEvent 1 1 0 3 (Some 10).
Definition enterB : Event := mkEvent 2 1 5 3 (Some 11).
Definition leaveAt2 : Event := mkEvent 3 1 2 7 None.
Definition leaveB : Event := mkEvent 4 1 6 7 None.
Definition leaveA : Event := mkEvent 5 1 10 7 None.
Definition leafAt5 : Event := mkEvent 6 1 5 9 None.
Definition leafAt3 : Event := mkEvent 7 1 3 9 None.
Definition otherZoneLeaf : Event := mkEvent 8 2 1 9 None.
Definition enterCAt3 : Event := mkEvent 9 1 3 3 (Some 12).
Definition enterDAt20 : Event := mkEvent 10 1 20 3 (Some 13).

(** An index in the middle of a batch whose last in-order event was at
    time [20], with no scope open. *)
Definition lateIndex : ZoneIndex EventList :=
  mkZoneIndex (mkEventList [] 0%Z) 1 7 None 20%Z [].

(** An index about to end a batch in which an enter event, a leaf and a
    leave event were deferred, in that order. *)
Definition orphanIndex : ZoneIndex EventList :=
  mkZoneIndex (mkEventList [] 0%Z) 1 7 None 20%Z [enterCAt3; leafAt5; leaveA].

(** ** In-order runs and the explicit stack they stand for *)

(** The out-of-order test of [insertEvent] fails all along [es] when the
    times never go below the last in-order time [t] and never decrease. *)
Fixpoint nondecreasingFrom (t : Z) (es : list Event) : bool :=
  match es with
  | [] => true
  | e :: es' => (t <=? time e)%Z && nondecreasingFrom (time e) es'
  end.

(** The reference the cursor is compared with: a stack of open scopes, top
    first.  An enter event pushes its scope, a leave event pops (and is
    ignored on the empty stack), any other event leaves the stack alone. *)
Definition explicitStack_step (scopeLeave : EventType) (stk : list ScopeRef)
    (e : Event) : list ScopeRef :=
  match ownScope e with
  | Some s => s :: stk
  | None => if eventType e =? scopeLeave then tail stk else stk
  end.

Definition explicitStack_run (scopeLeave : EventType) (stk : list ScopeRef)
    (es : list Event) : list ScopeRef :=
  fold_left (explicitStack_step scopeLeave) es stk.

(** The (scope, leave event) pairs that the explicit stack closes along
    [es]. *)
Fixpoint explicitStack_leaves (scopeLeave : EventType) (stk : list ScopeRef)
    (es : list Event) : list (ScopeRef * Event) :=
  match es with
  | [] => []
  | e :: es' =>
      match ownScope e, stk with
      | None, s :: _ =>
          if eventType e =? scopeLeave then [(s, e)] else []
      | _, _ => []
      end ++ explicitStack_leaves scopeLeave
               (explicitStack_step scopeLeave stk e) es'
  end.

(** The parent back-references of the store spell out the stack: each scope
    of [stk] has the next one as its parent, the last one has none. *)
Fixpoint parentChain (h : Heap) (stk : list ScopeRef) : Prop :=
  match stk with
  | [] => True
  | s :: rest => parent_ (getScope h s) = head rest ∧ parentChain h rest
  end.

(** * wtf.ui.PaintContext: the paint-context tree

    A shallow embedding of [src/wtf/ui/paintcontext.js].  Paint contexts are
    objects in a store; the calls made on a canvas rendering context are
    recorded in a log, as are the callbacks handed to
    [wtf.timing.deferToNextFrame]. *)

(** The arithmetic of JavaScript numbers that the file uses, kept abstract:
    the literals [0] and [1], [+], [/] and [<=]. *)
Class JsNumber (N : Type) := {
  num_zero : N;
  num_one : N;
  num_add : N → N → N;
  num_div : N → N → N;
  num_leb : N → N → bool
}.

(** A call on a [CanvasRenderingContext2D], or on one of the helpers that
    take it as an argument.  [op_repaintInternal c w h] is the call of
    [repaintInternal(ctx, w, h)] on paint context [c]. *)
Inductive CanvasOp (N : Type) : Type :=
| op_reset (pixelRatio : N)
| op_save
| op_restore
| op_clearRect (x y w h : N)
| op_fillStyle (color : string)
| op_fillRect (x y w h : N)
| op_beginPath
| op_moveTo (x y : N)
| op_lineTo (x y : N)
| op_clip
| op_repaintInternal (context : nat) (w h : N).
Arguments op_reset {N}.
Arguments op_save {N}.
Arguments op_restore {N}.
Arguments op_clearRect {N}.
Arguments op_fillStyle {N}.
Arguments op_fillRect {N}.
Arguments op_beginPath {N}.
Arguments op_moveTo {N}.
Arguments op_lineTo {N}.
Arguments op_clip {N}.
Arguments op_repaintInternal {N}.

(** The fields of a paint context.  A canvas and its 2d rendering context
    are identified by the same number, so [canvas_] also stands for
    [canvasContext2d_]. *)
Record PaintContext := mkPaintContext {
  canvas_ : nat;
  parentContext_ : option nat;
  childContexts_ : list nat;
  repaintPending_ : bool;
  ready_ : bool
}.

(** The store of paint contexts, with the reference the next [new] returns,
    the callbacks deferred to the next frame (each is [repaintRequested_]
    bound to the context listed) and the log of canvas calls, each with the
    rendering context it was made on. *)
Record PaintWorld (N : Type) := mkPaintWorld {
  contexts : gmap nat PaintContext;
  nextRef : nat;
  nextFrame : list nat;
  canvasLog : list (nat * CanvasOp N)
}.
Arguments mkPaintWorld {N}.
Arguments contexts {N}.
Arguments nextRef {N}.
Arguments nextFrame {N}.
Arguments canvasLog {N}.

Section PaintContext.
Context {N : Type} `{!JsNumber N}.

(** What the file reads from its surroundings: the [width] and [height] of a
    canvas element, [wtf.util.canvas.getCanvasPixelRatio], and, for each
    paint context, whether its [repaintInternal] returns a true value.
    [repaintInternal] is [goog.nullFunction] unless a subclass overrides it;
    an override is taken to draw only, without calling back into the paint
    contexts. *)
Variable canvasWidth canvasHeight : nat → N.
Variable getCanvasPixelRatio : nat → N.
Variable repaintInternal : nat → N → N → bool.

Definition set_contexts (m : gmap nat PaintContext) (w : PaintWorld N)
  : PaintWorld N :=
  mkPaintWorld m (nextRef w) (nextFrame w) (canvasLog w).

Definition emit (ctx : nat) (ops : list (CanvasOp N)) (w : PaintWorld N)
  : PaintWorld N :=
  mkPaintWorld (contexts w) (nextRef w) (nextFrame w)
               (canvasLog w ++ map (pair ctx) ops).

Definition set_ready (v : bool) (o : PaintContext) : PaintContext :=
  mkPaintContext (canvas_ o) (parentContext_ o) (childContexts_ o)
                 (repaintPending_ o) v.

Definition set_repaintPending (v : bool) (o : PaintContext) : PaintContext :=
  mkPaintContext (canvas_ o) (parentContext_ o) (childContexts_ o) v
                 (ready_ o).

Definition push_child (c : nat) (o : PaintContext) : PaintContext :=
  mkPaintContext (canvas_ o) (parentContext_ o) (childContexts_ o ++ [c])
                 (repaintPending_ o) (ready_ o).

(** The constructor; the result is the new object's reference and the
    store with the object in it and, if a parent is given, at the end of the
    parent's [childContexts_]. *)
Definition new_PaintContext (canvas : nat) (opt_parentContext : option nat)
    (w : PaintWorld N) : nat * PaintWorld N :=
  let this := nextRef w in
  let o := mkPaintContext canvas opt_parentContext [] false true in
  let m := <[this := o]> (contexts w) in
  let m := match opt_parentContext with
           | Some p => alter (push_child this) p m
           | None => m
           end in
  (this, mkPaintWorld m (S this) (nextFrame w) (canvasLog w)).

Definition getCanvas (o : PaintContext) : nat := canvas_ o.

Definition getCanvasContext2d (o : PaintContext) : nat := canvas_ o.

(** [requestRepaint] walks up the parent references; [fuel] bounds the
    walk, and the result is [None] when the fuel runs out or a reference
    leads nowhere. *)
Fixpoint requestRepaint_walk (fuel : nat) (this : nat) (w : PaintWorld N)
  : option (PaintWorld N) :=
  match fuel with
  | 0 => None
  | S fuel' =>
      match contexts w !! this with
      | None => None
      | Some o =>
          match parentContext_ o with
          | Some p => requestRepaint_walk fuel' p w
          | None =>
              if repaintPending_ o then Some w
              else
                Some (mkPaintWorld
                        (<[this := set_repaintPending true o]> (contexts w))
                        (nextRef w) (nextFrame w ++ [this]) (canvasLog w))
          end
      end
  end.

(** A parent is created before its children, so its reference is the
    smaller one and [S this] steps are enough. *)
Definition requestRepaint (this : nat) (w : PaintWorld N)
  : option (PaintWorld N) :=
  requestRepaint_walk (S this) this w.

Definition setReady (value : bool) (this : nat) (w : PaintWorld N)
  : option (PaintWorld N) :=
  let w := set_contexts (alter (set_ready value) this (contexts w)) w in
  if value then requestRepaint this w else Some w.

(** [clear]: a missing, null or empty colour is false in the test
    [!opt_color]. *)
Definition clear (this : PaintContext) (x y w h : N)
    (opt_color : option string) : list (CanvasOp N) :=
  match opt_color with
  | None => [op_clearRect x y w h]
  | Some color =>
      if String.eqb color "" then [op_clearRect x y w h]
      else [op_fillStyle color; op_fillRect x y w h]
  end.

Definition clip (this : PaintContext) (x y w h : N) : list (CanvasOp N) :=
  [op_beginPath;
   op_moveTo x y;
   op_lineTo (num_add x w) y;
   op_lineTo (num_add x w) (num_add y h);
   op_lineTo x (num_add y h);
   op_lineTo x y;
   op_clip].

(** The calls [repaint] makes on the rendering context of [this]. *)
Definition repaint_ops (this : nat) (o : PaintContext) : list (CanvasOp N) :=
  match parentContext_ o with
  | Some _ => []  (* Ignore requests if a child. *)
  | None =>
      if negb (ready_ o) then []  (* Skip all drawing if not marked ready. *)
      else
        let ctx := canvas_ o in
        let pixelRatio := getCanvasPixelRatio ctx in
        let width := num_div (canvasWidth (canvas_ o)) pixelRatio in
        let height := num_div (canvasHeight (canvas_ o)) pixelRatio in
        op_reset pixelRatio ::
        if num_leb height num_one then []  (* Skip all drawing if too small. *)
        else
          [op_save] ++
          clear o num_zero num_zero width height None ++
          [op_repaintInternal this width height] ++
          [op_restore] ++
          if repaintInternal this width height then []
          else
            flat_map (λ childContext,
                        [op_save;
                         op_repaintInternal childContext width height;
                         op_restore])
                     (childContexts_ o)
  end.

Definition repaint (this : nat) (w : PaintWorld N) : PaintWorld N :=
  match contexts w !! this with
  | Some o => emit (canvas_ o) (repaint_ops this o) w
  | None => w
  end.

Definition repaintRequested_ (this : nat) (w : PaintWorld N) : PaintWorld N :=
  match contexts w !! this with
  | Some o =>
      if bool_decide (parentContext_ o ≠ None) || negb (repaintPending_ o)
      then w
      else repaint this
             (set_contexts
                (<[this := set_repaintPending false o]> (contexts w)) w)
  | None => w
  end.

(** The root that the parent references lead to from [this], by the same
    walk as [requestRepaint]. *)
Fixpoint rootContext_walk (fuel : nat) (this : nat) (w : PaintWorld N)
  : option nat :=
  match fuel with
  | 0 => None
  | S fuel' =>
      match contexts w !! this with
      | None => None
      | Some o =>
          match parentContext_ o with
          | Some p => rootContext_walk fuel' p w
          | None => Some this
          end
      end
  end.

Definition rootContext (this : nat) (w : PaintWorld N) : option nat :=
  rootContext_walk (S this) this w.

(** The store after a request that reached the root [r], found in state
    [o]: the flag is set and one callback is deferred, unless the flag was
    set already. *)
Definition requested (r : nat) (o : PaintContext) (w : PaintWorld N)
  : PaintWorld N :=
  if repaintPending_ o then w
  else mkPaintWorld (<[r := set_repaintPending true o]> (contexts w))
                    (nextRef w) (nextFrame w ++ [r]) (canvasLog w).

(** The depth of the saved-state stack of a rendering context after [ops],
    starting at depth [d]; [None] when a [restore] finds nothing saved at or
    above the starting stack. *)
Fixpoint canvasStateDepth (d : nat) (ops : list (CanvasOp N)) : option nat :=
  match ops with
  | [] => Some d
  | op_save :: ops' => canvasStateDepth (S d) ops'
  | op_restore :: ops' =>
      match d with
      | 0 => None
      | S d' => canvasStateDepth d' ops'
      end
  | _ :: ops' => canvasStateDepth d ops'
  end.

(** The paint contexts whose [repaintInternal] is called in [ops], in call
    order. *)
Definition paintedContexts (ops : list (CanvasOp N)) : list nat :=
  omap (λ op, match op with
              | op_repaintInternal c _ _ => Some c
              | _ => None
              end) ops.

Definition emptyPaintWorld : PaintWorld N := mkPaintWorld ∅ 0 [] [].

(** The store is well formed when every reference in use has been handed
    out, and every parent is an object that was created before its child. *)
Definition paintWorld_wf (w : PaintWorld N) : Prop :=
  ∀ c o, contexts w !! c = Some o →
    c < nextRef w ∧
    ∀ p, parentContext_ o = Some p → p < c ∧ is_Some (contexts w !! p).

End PaintContext.

(** ** Sample paint contexts

    Integers stand in for JavaScript numbers here; the canvas is 800 by 600
    with a pixel ratio of 2, and no [repaintInternal] prevents the painting
    of children. *)

#[global] Instance Z_JsNumber : JsNumber Z := {
  num_zero := 0%Z;
  num_one := 1%Z;
  num_add := Z.add;
  num_div := Z.div;
  num_leb := Z.leb
}.

Definition sampleWidth (canvas : nat) : Z := 800%Z.
Definition sampleHeight (canvas : nat) : Z := 600%Z.
Definition samplePixelRatio (canvas : nat) : Z := 2%Z.
Definition sampleRepaintInternal (context : nat) (w h : Z) : bool := false.

(** A root (reference [0]), a child of it ([1]) and a child of that child
    ([2]), all on canvas [0]. *)
Definition rootOnly : PaintWorld Z :=
  snd (new_PaintContext 0 None emptyPaintWorld).
Definition rootAndChild : PaintWorld Z :=
  snd (new_PaintContext 0 (Some 0) rootOnly).
Definition paintTree : PaintWorld Z :=
  snd (new_PaintContext 0 (Some 1) rootAndChild).

(** An index about to end a batch in which an enter event and two leave
    events were deferred, in that order. *)
Definition twoLeavesIndex : ZoneIndex EventList :=
  mkZoneIndex (mkEventList [] 0%Z) 1 7 None 20%Z
              [enterCAt3; leaveA; leaveAt2].

(** The state before [endInserting] of a batch in which scope A was entered
    at time 0 and left at time 10 in order, and then an enter event at time
    3, a leaf at time 5 and a leave event at time 6 arrived late. *)
Definition lateScopeBatch : Heap * ZoneIndex EventList :=
  insertEvents [enterA; leaveA; enterCAt3; leafAt5; leaveB]
               (emptyHeap, beginInserting freshIndex).

(** * Properties *)

(** ** The store *)

Lemma getScope_putScope (h : Heap) (s s' : nat) (o : Scope) :
  getScope (putScope s o h) s' = if decide (s = s') then o else getScope h s'.
Proof.
  unfold getScope, putScope; simpl.
  rewrite lookup_insert. by case_decide.
Qed.

Lemma eventScope_putScope h s o : eventScope (putScope s o h) = eventScope h.
Proof. reflexivity. Qed.

Lemma eventScope_addChild p c h :
  eventScope (Scope_addChild p c h) = eventScope h.
Proof. reflexivity. Qed.

Lemma eventScope_setLeaveEvent s e h :
  eventScope (Scope_setLeaveEvent s e h) = eventScope h.
Proof. reflexivity. Qed.

Lemma scopes_setScope e v h : scopes (Event_setScope e v h) = scopes h.
Proof. reflexivity. Qed.

Lemma getScope_setScope e v h s :
  getScope (Event_setScope e v h) s = getScope h s.
Proof. reflexivity. Qed.

Lemma eventScope_setScope e v h :
  eventScope (Event_setScope e v h) !! eid e = v.
Proof.
  destruct v; simpl; [apply lookup_insert_eq | apply lookup_delete_eq].
Qed.

Lemma Event_scope_setScope e v h :
  ownScope e = None → Event_scope (Event_setScope e v h) e = v.
Proof.
  intros He. unfold Event_scope. rewrite He. apply eventScope_setScope.
Qed.

Lemma Event_scope_eventScope h h' e :
  eventScope h' = eventScope h → Event_scope h' e = Event_scope h e.
Proof. unfold Event_scope. by intros ->. Qed.

Lemma parent_addChild p c h :
  parent_ (getScope (Scope_addChild p c h) c) = Some p.
Proof.
  unfold Scope_addChild. rewrite getScope_putScope.
  by rewrite decide_True.
Qed.

Lemma parent_addChild_ne p c h s :
  s ≠ c → parent_ (getScope (Scope_addChild p c h) s) = parent_ (getScope h s).
Proof.
  intros Hs. unfold Scope_addChild.
  rewrite !getScope_putScope. rewrite (decide_False (P := c = s)) by auto.
  by case_decide; subst.
Qed.

Lemma children_addChild p c h s :
  children_ (getScope (Scope_addChild p c h) s) =
  if decide (s = p) then children_ (getScope h p) ++ [c]
  else children_ (getScope h s).
Proof.
  unfold Scope_addChild. rewrite !getScope_putScope.
  repeat case_decide; subst; simpl; try congruence.
Qed.

Lemma leaveEvent_addChild p c h s :
  leaveEvent_ (getScope (Scope_addChild p c h) s) = leaveEvent_ (getScope h s).
Proof.
  unfold Scope_addChild. rewrite !getScope_putScope.
  repeat case_decide; subst; simpl; try congruence.
Qed.

Lemma leaveEvent_setLeaveEvent c e h s :
  leaveEvent_ (getScope (Scope_setLeaveEvent c e h) s) =
  if decide (c = s) then Some e else leaveEvent_ (getScope h s).
Proof.
  unfold Scope_setLeaveEvent. rewrite getScope_putScope. by case_decide.
Qed.

Lemma parent_setLeaveEvent c e h s :
  parent_ (getScope (Scope_setLeaveEvent c e h) s) = parent_ (getScope h s).
Proof.
  unfold Scope_setLeaveEvent. rewrite getScope_putScope.
  by case_decide; subst.
Qed.

Lemma children_setLeaveEvent c e h s :
  children_ (getScope (Scope_setLeaveEvent c e h) s) = children_ (getScope h s).
Proof.
  unfold Scope_setLeaveEvent. rewrite getScope_putScope.
  by case_decide; subst.
Qed.

(** ** The three batch operations *)

Section ZoneIndexFacts.
Context {EL : Type} `{!EventListBase EL}.
Implicit Types (e : Event) (h : Heap) (this : ZoneIndex EL)
  (st : Heap * ZoneIndex EL).

Lemma insertEvent_same_zone e st :
  zone e = zone_ (snd st) →
  insertEvent e st =
  (fst (insertEvent_classify e st),
   set_base (EventList_insertEvent e (base (snd (insertEvent_classify e st))))
            (snd (insertEvent_classify e st))).
Proof.
  intros Hz. unfold insertEvent. rewrite Hz, Nat.eqb_refl.
  by destruct (insertEvent_classify e st).
Qed.

Lemma insertEvent_other_zone e st :
  zone e ≠ zone_ (snd st) → insertEvent e st = st.
Proof.
  intros Hz. unfold insertEvent.
  by apply Nat.eqb_neq in Hz as ->.
Qed.

Lemma classify_out_of_order e st :
  (time e < lastAddEventTime_ (snd st))%Z →
  insertEvent_classify e st =
  (fst st, set_pending (pendingOutOfOrderEvents_ (snd st) ++ [e]) (snd st)).
Proof.
  intros Ht. unfold insertEvent_classify.
  by apply Z.ltb_lt in Ht as ->.
Qed.

Lemma classify_in_order e st :
  (lastAddEventTime_ (snd st) ≤ time e)%Z →
  insertEvent_classify e st = insertEvent_inOrder e st.
Proof.
  intros Ht. unfold insertEvent_classify.
  by apply Z.ltb_ge in Ht as ->.
Qed.

(** What the in-order branch leaves alone. *)
Lemma inOrder_frame e st :
  let st' := insertEvent_inOrder e st in
  base (snd st') = base (snd st) ∧
  zone_ (snd st') = zone_ (snd st) ∧
  eventTypes_scopeLeave (snd st') = eventTypes_scopeLeave (snd st) ∧
  lastAddEventTime_ (snd st') = time e ∧
  pendingOutOfOrderEvents_ (snd st') = pendingOutOfOrderEvents_ (snd st).
Proof.
  destruct st as [h this]. unfold insertEvent_inOrder. simpl.
  destruct (ownScope e); simpl; [done|].
  destruct (eventType e =? eventTypes_scopeLeave this);
    destruct (currentScope_ this); simpl; done.
Qed.

Lemma classify_frame e st :
  let st' := insertEvent_classify e st in
  base (snd st') = base (snd st) ∧
  zone_ (snd st') = zone_ (snd st) ∧
  eventTypes_scopeLeave (snd st') = eventTypes_scopeLeave (snd st).
Proof.
  unfold insertEvent_classify.
  destruct (time e <? lastAddEventTime_ (snd st))%Z; simpl; [done|].
  pose proof (inOrder_frame e st) as H. simpl in H. tauto.
Qed.

Lemma insertEvent_zone_ e st : zone_ (snd (insertEvent e st)) = zone_ (snd st).
Proof.
  destruct (decide (zone e = zone_ (snd st))) as [Hz|Hz].
  - rewrite insertEvent_same_zone by done. simpl.
    apply (classify_frame e st).
  - by rewrite insertEvent_other_zone.
Qed.

Lemma insertEvents_zone_ es st :
  zone_ (snd (insertEvents es st)) = zone_ (snd st).
Proof.
  revert st. induction es as [|e es IH]; intros st; simpl; [done|].
  unfold insertEvents in *. simpl. rewrite IH. apply insertEvent_zone_.
Qed.

Lemma insertEvents_app es1 es2 st :
  insertEvents (es1 ++ es2) st = insertEvents es2 (insertEvents es1 st).
Proof. unfold insertEvents. apply fold_left_app. Qed.

Lemma insertEvents_cons e es st :
  insertEvents (e :: es) st = insertEvents es (insertEvent e st).
Proof. reflexivity. Qed.

(** C4: inserting an event of another zone changes nothing: not the store
    (so no event's scope is set), not the event list, not the cursor, the
    last in-order time or the pending list; and so for any number of such
    insertions in a row. *)
Theorem insertEvent_other_zone_noop (es : list Event) st :
  Forall (λ e, zone e ≠ zone_ (snd st)) es →
  let st' := insertEvents es st in
  st' = st ∧
  length (EventList_events (base (snd st'))) =
    length (EventList_events (base (snd st))) ∧
  currentScope_ (snd st') = currentScope_ (snd st) ∧
  lastAddEventTime_ (snd st') = lastAddEventTime_ (snd st) ∧
  pendingOutOfOrderEvents_ (snd st') = pendingOutOfOrderEvents_ (snd st) ∧
  ∀ e, Event_scope (fst st') e = Event_scope (fst st) e.
Proof.
  intros Hes. simpl.
  assert (insertEvents es st = st) as ->; [|done].
  induction Hes as [|e es He _ IH]; [done|].
  rewrite insertEvents_cons, insertEvent_other_zone; done.
Qed.

(** C9: an out-of-order event of the index's zone only joins the pending
    list: the last in-order time, the cursor and the store are as before, so
    the out-of-order test of any later event has the same outcome as if the
    deferred event had not been inserted. *)
Theorem insertEvent_deferred_frame e st :
  zone e = zone_ (snd st) →
  (time e < lastAddEventTime_ (snd st))%Z →
  let st' := insertEvent e st in
  lastAddEventTime_ (snd st') = lastAddEventTime_ (snd st) ∧
  currentScope_ (snd st') = currentScope_ (snd st) ∧
  pendingOutOfOrderEvents_ (snd st') =
    pendingOutOfOrderEvents_ (snd st) ++ [e] ∧
  fst st' = fst st ∧
  ∀ e', (time e' <? lastAddEventTime_ (snd st'))%Z =
        (time e' <? lastAddEventTime_ (snd st))%Z.
Proof.
  intros Hz Ht. simpl.
  rewrite insertEvent_same_zone, classify_out_of_order by done.
  simpl. done.
Qed.

Lemma endInserting_unfold h this :
  endInserting (h, this) =
  (fst (fold_left (endInserting_step this)
                  (pendingOutOfOrderEvents_ this) (h, None)),
   mkZoneIndex (EventList_endInserting (base this)) (zone_ this)
               (eventTypes_scopeLeave this) None (lastAddEventTime_ this) []).
Proof.
  unfold endInserting. simpl.
  change (endInserting_step (set_currentScope None this))
    with (endInserting_step this).
  by destruct (fold_left _ _ _).
Qed.

(** C8: the out-of-order test is strict.  An event of the index's zone whose
    time equals the last in-order time takes the in-order branch: the pending
    list is as before and the event is classified against the cursor at once
    (an enter event becomes the cursor and is added to the open scope; a leave
    event is associated with the cursor and closes it; a leaf is associated
    with the open scope). *)
Theorem insertEvent_equal_time_in_order e h this :
  zone e = zone_ this →
  time e = lastAddEventTime_ this →
  let st' := insertEvent e (h, this) in
  insertEvent_classify e (h, this) = insertEvent_inOrder e (h, this) ∧
  pendingOutOfOrderEvents_ (snd st') = pendingOutOfOrderEvents_ this ∧
  (∀ s, ownScope e = Some s →
        currentScope_ (snd st') = Some s ∧
        fst st' = match currentScope_ this with
                  | Some c => Scope_addChild c s h
                  | None => h
                  end) ∧
  (ownScope e = None → eventType e = eventTypes_scopeLeave this →
        Event_scope (fst st') e = currentScope_ this ∧
        ∀ c, currentScope_ this = Some c →
             leaveEvent_ (getScope (fst st') c) = Some e ∧
             currentScope_ (snd st') = parent_ (getScope h c)) ∧
  (ownScope e = None → eventType e ≠ eventTypes_scopeLeave this →
        currentScope_ (snd st') = currentScope_ this ∧
        ∀ c, currentScope_ this = Some c →
             Event_scope (fst st') e = Some c).
Proof.
  intros Hz Ht. simpl.
  assert (Hc : insertEvent_classify e (h, this) = insertEvent_inOrder e (h, this)).
  { apply classify_in_order. simpl. lia. }
  rewrite insertEvent_same_zone by done. rewrite Hc. simpl.
  split; [done|]. split; [apply (inOrder_frame e (h, this))|].
  split; [|split].
  - intros s Hs. rewrite Hs. done.
  - intros Hs Hl. apply Nat.eqb_eq in Hl. rewrite Hs, Hl. split.
    + destruct (currentScope_ this) as [c|]; simpl.
      * unfold Event_scope. rewrite Hs, eventScope_setLeaveEvent.
        apply eventScope_setScope.
      * by apply Event_scope_setScope.
    + intros c Hcur. rewrite Hcur. simpl. split.
      * rewrite leaveEvent_setLeaveEvent. by rewrite decide_True.
      * unfold Scope_getParent.
        by rewrite parent_setLeaveEvent, getScope_setScope.
  - intros Hs Hl. apply Nat.eqb_neq in Hl. rewrite Hs, Hl. split.
    + destruct (currentScope_ this) eqn:Hcur; simpl; by rewrite ?Hcur.
    + intros c Hcur. rewrite Hcur. simpl. by apply Event_scope_setScope.
Qed.


(** The four in-order cases of [insertEvent], each with its resulting state. *)

Lemma insertEvent_enter e s h this :
  zone e = zone_ this → (lastAddEventTime_ this ≤ time e)%Z →
  ownScope e = Some s →
  insertEvent e (h, this) =
  (match currentScope_ this with
   | Some c => Scope_addChild c s h
   | None => h
   end,
   mkZoneIndex (EventList_insertEvent e (base this)) (zone_ this)
               (eventTypes_scopeLeave this) (Some s) (time e)
               (pendingOutOfOrderEvents_ this)).
Proof.
  intros Hz Ht Hs.
  rewrite insertEvent_same_zone, classify_in_order by done.
  simpl. by rewrite Hs.
Qed.

Lemma insertEvent_leave_open e c h this :
  zone e = zone_ this → (lastAddEventTime_ this ≤ time e)%Z →
  ownScope e = None → eventType e = eventTypes_scopeLeave this →
  currentScope_ this = Some c →
  insertEvent e (h, this) =
  (Scope_setLeaveEvent c e (Event_setScope e (Some c) h),
   mkZoneIndex (EventList_insertEvent e (base this)) (zone_ this)
               (eventTypes_scopeLeave this) (parent_ (getScope h c)) (time e)
               (pendingOutOfOrderEvents_ this)).
Proof.
  intros Hz Ht Hs Hl Hc. apply Nat.eqb_eq in Hl.
  rewrite insertEvent_same_zone, classify_in_order by done.
  simpl. rewrite Hs, Hl, Hc. simpl.
  unfold Scope_getParent. by rewrite parent_setLeaveEvent, getScope_setScope.
Qed.

Lemma insertEvent_leave_unmatched e h this :
  zone e = zone_ this → (lastAddEventTime_ this ≤ time e)%Z →
  ownScope e = None → eventType e = eventTypes_scopeLeave this →
  currentScope_ this = None →
  insertEvent e (h, this) =
  (Event_setScope e None h,
   mkZoneIndex (EventList_insertEvent e (base this)) (zone_ this)
               (eventTypes_scopeLeave this) None (time e)
               (pendingOutOfOrderEvents_ this)).
Proof.
  intros Hz Ht Hs Hl Hc. apply Nat.eqb_eq in Hl.
  rewrite insertEvent_same_zone, classify_in_order by done.
  simpl. rewrite Hs, Hl, Hc. simpl.
  unfold set_base, set_lastAddEventTime. simpl. by rewrite Hc.
Qed.

Lemma insertEvent_leaf e h this :
  zone e = zone_ this → (lastAddEventTime_ this ≤ time e)%Z →
  ownScope e = None → eventType e ≠ eventTypes_scopeLeave this →
  insertEvent e (h, this) =
  (match currentScope_ this with
   | Some c => Event_setScope e (Some c) h
   | None => h
   end,
   mkZoneIndex (EventList_insertEvent e (base this)) (zone_ this)
               (eventTypes_scopeLeave this) (currentScope_ this) (time e)
               (pendingOutOfOrderEvents_ this)).
Proof.
  intros Hz Ht Hs Hl. apply Nat.eqb_neq in Hl.
  rewrite insertEvent_same_zone, classify_in_order by done.
  simpl. rewrite Hs, Hl.
  unfold set_base, set_lastAddEventTime.
  destruct (currentScope_ this) eqn:Hc; simpl; by rewrite ?Hc.
Qed.

Lemma insertEvent_deferred e h this :
  zone e = zone_ this → (time e < lastAddEventTime_ this)%Z →
  insertEvent e (h, this) =
  (h,
   mkZoneIndex (EventList_insertEvent e (base this)) (zone_ this)
               (eventTypes_scopeLeave this) (currentScope_ this)
               (lastAddEventTime_ this)
               (pendingOutOfOrderEvents_ this ++ [e])).
Proof.
  intros Hz Ht.
  by rewrite insertEvent_same_zone, classify_out_of_order.
Qed.

(** C5: properly nested pairs inserted in order.  For enter A, enter B,
    leave B, leave A of the index's zone, with non-decreasing times starting
    at or after the last in-order time, A becomes B's parent, B is among A's
    children, B's leave event is recorded on B and A's on A (and each leave
    event is associated with its scope). *)
Theorem nested_pairs_in_order (eA eB lB lA : Event) (A B : nat) h this :
  zone eA = zone_ this → zone eB = zone_ this →
  zone lB = zone_ this → zone lA = zone_ this →
  ownScope eA = Some A → ownScope eB = Some B → A ≠ B →
  ownScope lB = None → eventType lB = eventTypes_scopeLeave this →
  ownScope lA = None → eventType lA = eventTypes_scopeLeave this →
  (lastAddEventTime_ this ≤ time eA)%Z → (time eA ≤ time eB)%Z →
  (time eB ≤ time lB)%Z → (time lB ≤ time lA)%Z →
  let h' := fst (insertEvents [eA; eB; lB; lA] (h, this)) in
  parent_ (getScope h' B) = Some A ∧
  B ∈ children_ (getScope h' A) ∧
  leaveEvent_ (getScope h' B) = Some lB ∧
  leaveEvent_ (getScope h' A) = Some lA ∧
  Event_scope h' lA = Some A ∧
  (eid lB ≠ eid lA → Event_scope h' lB = Some B).
Proof.
  intros HzA HzB HzlB HzlA HA HB HAB HlB HtB HlA HtA T1 T2 T3 T4 h'.
  subst h'. rewrite !insertEvents_cons.
  rewrite (insertEvent_enter eA A) by done.
  rewrite (insertEvent_enter eB B) by done. simpl.
  set (h1 := match currentScope_ this with
             | Some c => Scope_addChild c A h
             | None => h
             end).
  rewrite (insertEvent_leave_open lB B) by done. simpl.
  rewrite parent_addChild.
  rewrite (insertEvent_leave_open lA A) by done. simpl.
  repeat split.
  - by rewrite parent_setLeaveEvent, getScope_setScope, parent_setLeaveEvent,
      getScope_setScope, parent_addChild.
  - rewrite children_setLeaveEvent, getScope_setScope, children_setLeaveEvent,
      getScope_setScope, children_addChild.
    rewrite decide_True by done. apply elem_of_app. right.
    by apply list_elem_of_singleton.
  - rewrite leaveEvent_setLeaveEvent, decide_False by done.
    rewrite getScope_setScope, leaveEvent_setLeaveEvent.
    by rewrite decide_True.
  - rewrite leaveEvent_setLeaveEvent. by rewrite decide_True.
  - unfold Event_scope. rewrite HlA, eventScope_setLeaveEvent.
    apply eventScope_setScope.
  - intros Hne. unfold Event_scope. rewrite HlB. simpl.
    by rewrite lookup_insert_ne, lookup_insert_eq.
Qed.

(** C6 (as amended): an in-order leave event of the index's zone that
    arrives while no scope is open is appended to the event list, ends up
    with no scope, and changes no scope; the cursor and the pending list are
    as before, but the last in-order time has advanced to the event's time.
    Any later event of the zone at or after that time is then inserted with
    the same effect on the scopes, the cursor, the pending list and the last
    in-order time as if the leave event had not been inserted. *)
Theorem unmatched_leave_in_order `{!EventListStorage EL} e h this :
  zone e = zone_ this → (lastAddEventTime_ this ≤ time e)%Z →
  ownScope e = None → eventType e = eventTypes_scopeLeave this →
  currentScope_ this = None →
  let st' := insertEvent e (h, this) in
  EventList_events (base (snd st')) = EventList_events (base this) ++ [e] ∧
  Event_scope (fst st') e = None ∧
  scopes (fst st') = scopes h ∧
  currentScope_ (snd st') = None ∧
  pendingOutOfOrderEvents_ (snd st') = pendingOutOfOrderEvents_ this ∧
  lastAddEventTime_ (snd st') = time e ∧
  ∀ e2, zone e2 = zone_ this → (time e ≤ time e2)%Z →
    let a := insertEvent e2 st' in
    let b := insertEvent e2 (h, this) in
    scopes (fst a) = scopes (fst b) ∧
    currentScope_ (snd a) = currentScope_ (snd b) ∧
    pendingOutOfOrderEvents_ (snd a) = pendingOutOfOrderEvents_ (snd b) ∧
    lastAddEventTime_ (snd a) = lastAddEventTime_ (snd b) ∧
    ∀ x, eid x ≠ eid e → Event_scope (fst a) x = Event_scope (fst b) x.
Proof.
  intros Hz Ht Hs Hl Hc st'. subst st'.
  rewrite (insertEvent_leave_unmatched e) by done. simpl.
  split; [apply EventList_insertEvent_events|].
  split; [by apply Event_scope_setScope|].
  do 4 (split; [done|]).
  intros e2 Hz2 Ht2.
  rewrite !insertEvent_same_zone by done.
  rewrite !classify_in_order by (simpl; lia).
  unfold insertEvent_inOrder. simpl. rewrite Hc.
  destruct (ownScope e2) as [s|] eqn:Hs2; simpl.
  { do 4 (split; [done|]). intros x Hx. unfold Event_scope; simpl.
    by rewrite lookup_delete_ne. }
  destruct (eventType e2 =? eventTypes_scopeLeave this); simpl.
  - do 4 (split; [done|]). intros x Hx. unfold Event_scope; simpl.
    destruct (ownScope x); [done|].
    destruct (decide (eid e2 = eid x)) as [Heq|Hne].
    + by rewrite <- Heq, !lookup_delete_eq.
    + by rewrite !(lookup_delete_ne _ (eid e2)), lookup_delete_ne.
  - do 4 (split; [done|]). intros x Hx. unfold Event_scope; simpl.
    by rewrite lookup_delete_ne.
Qed.

Lemma insertEvent_events `{!EventListStorage EL} e st :
  EventList_events (base (snd (insertEvent e st))) =
  EventList_events (base (snd st)) ++
    (if decide (zone e = zone_ (snd st)) then [e] else []).
Proof.
  case_decide as Hz.
  - rewrite insertEvent_same_zone by done. simpl.
    rewrite EventList_insertEvent_events.
    by rewrite (proj1 (classify_frame e st)).
  - rewrite insertEvent_other_zone by done. by rewrite app_nil_r.
Qed.

Lemma insertEvents_events `{!EventListStorage EL} es st :
  EventList_events (base (snd (insertEvents es st))) =
  EventList_events (base (snd st)) ++
    filter (λ e, zone e = zone_ (snd st)) es.
Proof.
  revert st. induction es as [|e es IH]; intros st.
  - simpl. by rewrite app_nil_r.
  - rewrite insertEvents_cons, IH, insertEvent_events, insertEvent_zone_.
    rewrite filter_cons. case_decide; simpl; by rewrite <- ?app_assoc.
Qed.

Lemma count_occ_filter_zone (z : nat) (es : list Event) e :
  zone e = z →
  count_occ Event_eq_dec (filter (λ x, zone x = z) es) e =
  count_occ Event_eq_dec es e.
Proof.
  intros Hz. induction es as [|x es IH]; [done|].
  rewrite filter_cons. simpl.
  destruct (Event_eq_dec x e) as [->|Hne].
  - rewrite decide_True by done. simpl.
    destruct (Event_eq_dec e e); [|done]. by rewrite IH.
  - case_decide; simpl; [|done].
    destruct (Event_eq_dec x e); [done|]. done.
Qed.

(** C7: the state at the end of a batch.  After [beginInserting], any
    sequence of [insertEvent] calls and [endInserting], the pending list is
    empty and the cursor is null; the event list holds what it held before
    together with the inserted events of the index's zone, each as many times
    as it was inserted: an event of the zone inserted once in the batch, and
    not stored before, is present exactly once. *)
Theorem batch_end_state `{!EventListStorage EL} es st :
  let st' := runBatch es st in
  pendingOutOfOrderEvents_ (snd st') = [] ∧
  currentScope_ (snd st') = None ∧
  EventList_events (base (snd st')) ≡ₚ
    EventList_events (base (snd st)) ++
      filter (λ e, zone e = zone_ (snd st)) es ∧
  ∀ e, zone e = zone_ (snd st) →
       count_occ Event_eq_dec es e = 1 →
       e ∉ EventList_events (base (snd st)) →
       count_occ Event_eq_dec (EventList_events (base (snd st'))) e = 1.
Proof.
  intros st'. subst st'. unfold runBatch.
  destruct (insertEvents es (fst st, beginInserting (snd st)))
    as [h1 this1] eqn:Hmid.
  rewrite endInserting_unfold. simpl.
  assert (Hev : EventList_events (EventList_endInserting (base this1)) ≡ₚ
                EventList_events (base (snd st)) ++
                  filter (λ e, zone e = zone_ (snd st)) es).
  { rewrite EventList_endInserting_events.
    change this1 with (snd (h1, this1)). rewrite <- Hmid.
    rewrite insertEvents_events. simpl.
    by rewrite EventList_beginInserting_events. }
  do 3 (split; [done|]).
  intros e Hz Hone Hnew.
  rewrite (proj1 (Permutation_count_occ Event_eq_dec _ _) Hev).
  rewrite count_occ_app, count_occ_filter_zone, Hone by done.
  rewrite (proj1 (count_occ_not_In Event_eq_dec _ e)); [done|].
  by rewrite <- list_elem_of_In.
Qed.

(** ** The reconciliation pass of [endInserting] *)

(** A run of deferred leaf events keeps the local cursor and the scopes, and
    writes the cursor into the [scope] field of each of them. *)
Lemma endInserting_leaf_run this (leafs : list Event) h cur :
  Forall (λ x, ownScope x = None ∧
               eventType x ≠ eventTypes_scopeLeave this) leafs →
  ∃ h2, fold_left (endInserting_step this) leafs (h, cur) = (h2, cur) ∧
        scopes h2 = scopes h ∧
        ∀ k, eventScope h2 !! k =
             if decide (k ∈ map eid leafs) then cur else eventScope h !! k.
Proof.
  intros Hl. revert h. induction Hl as [|x leafs [Hx1 Hx2] _ IH]; intros h.
  - exists h. split; [done|]. split; [done|].
    intros k. rewrite decide_False; [done|]. apply not_elem_of_nil.
  - simpl. rewrite Hx1. apply Nat.eqb_neq in Hx2. rewrite Hx2.
    destruct (IH (Event_setScope x cur h)) as (h2 & Hf & Hs & Hk).
    exists h2. split; [done|]. split; [by rewrite Hs|].
    intros k. rewrite Hk.
    change (map eid (x :: leafs)) with (eid x :: map eid leafs).
    destruct (decide (k = eid x)) as [->|Hne].
    + rewrite eventScope_setScope.
      rewrite (decide_True (P := eid x ∈ eid x :: map eid leafs))
        by (apply elem_of_cons; auto).
      by case_decide.
    + assert (eventScope (Event_setScope x cur h) !! k = eventScope h !! k)
        as ->.
      { destruct cur; simpl;
          [by rewrite lookup_insert_ne | by rewrite lookup_delete_ne]. }
      destruct (decide (k ∈ map eid leafs)) as [Hin|Hnin].
      * by rewrite decide_True by (apply elem_of_cons; auto).
      * by rewrite decide_False by (apply not_elem_of_cons; auto).
Qed.

(** C10: a deferred scope-enter event for which no enclosing scope is found.
    In the reconciliation pass its scope is attached nowhere (no scope gains
    a child or a parent), yet it becomes the local cursor: the deferred leaf
    events that follow it, and a deferred leave event right after them, are
    all associated with that scope, and the leave event becomes its leave
    event. *)
Theorem orphan_scope_is_cursor (pre leafs : list Event) (eS : Event)
    (lvo : option Event) (S : nat) h this h1 c1 :
  pendingOutOfOrderEvents_ this = pre ++ eS :: leafs ++ option_list lvo →
  fold_left (endInserting_step this) pre (h, None) = (h1, c1) →
  ownScope eS = Some S →
  EventList_findEnclosingScope h1 (base this) (time eS) = None →
  Forall (λ x, ownScope x = None ∧
               eventType x ≠ eventTypes_scopeLeave this) leafs →
  (∀ lv, lvo = Some lv →
         ownScope lv = None ∧ eventType lv = eventTypes_scopeLeave this) →
  let h' := fst (endInserting (h, this)) in
  (∀ p, parent_ (getScope h' p) = parent_ (getScope h1 p) ∧
        children_ (getScope h' p) = children_ (getScope h1 p)) ∧
  (∀ x, x ∈ leafs ++ option_list lvo → Event_scope h' x = Some S) ∧
  (∀ lv, lvo = Some lv → leaveEvent_ (getScope h' S) = Some lv).
Proof.
  intros Hp Hpre HS Hfind Hleafs Hlv h'. subst h'.
  rewrite endInserting_unfold, Hp. simpl.
  rewrite fold_left_app, Hpre. simpl. rewrite HS, Hfind.
  rewrite fold_left_app.
  destruct (endInserting_leaf_run this leafs h1 (Some S) Hleafs)
    as (h2 & -> & Hs2 & Hk2).
  assert (Hleaf_scope : ∀ x, x ∈ leafs → Event_scope h2 x = Some S).
  { intros x Hx. unfold Event_scope.
    rewrite (proj1 (proj1 (Forall_forall _ _) Hleafs x Hx)), Hk2.
    rewrite decide_True; [done|]. apply list_elem_of_fmap. by exists x. }
  destruct lvo as [lv|]; simpl.
  - destruct (Hlv lv eq_refl) as [Hl1 Hl2].
    apply Nat.eqb_eq in Hl2. rewrite Hl1, Hl2. simpl.
    split; [|split].
    + intros p.
      rewrite parent_setLeaveEvent, children_setLeaveEvent, getScope_setScope.
      unfold getScope. by rewrite Hs2.
    + intros x Hx. apply elem_of_app in Hx as [Hx|Hx].
      * unfold Event_scope.
        rewrite (proj1 (proj1 (Forall_forall _ _) Hleafs x Hx)). simpl.
        destruct (decide (eid lv = eid x)) as [->|Hne];
          [by rewrite lookup_insert_eq|].
        rewrite lookup_insert_ne by done.
        specialize (Hleaf_scope x Hx). unfold Event_scope in Hleaf_scope.
        by rewrite (proj1 (proj1 (Forall_forall _ _) Hleafs x Hx))
          in Hleaf_scope.
      * apply list_elem_of_singleton in Hx as ->.
        unfold Event_scope. rewrite Hl1. simpl. by rewrite lookup_insert_eq.
    + intros lv' [= <-]. rewrite leaveEvent_setLeaveEvent.
      by rewrite decide_True.
  - split; [|split].
    + intros p. unfold getScope. by rewrite Hs2.
    + intros x Hx. rewrite app_nil_r in Hx. by apply Hleaf_scope.
    + by intros lv [=].
Qed.

(** C1 (as amended): the batch enter A, enter B, leave, where the leave event
    is earlier than B's enter (times 0, 5 and 2, say), inserted for the
    index's zone with nothing pending.  The leave event is deferred by
    [insertEvent]; [endInserting] associates it with its local cursor, which
    is null because no deferred scope-enter precedes it: the leave event ends
    up with no scope and no scope, A and B included, receives it as its leave
    event.  B is a child of A from the in-order pass. *)
Theorem deferred_leave_gets_no_scope (eA eB lv : Event) (A B : nat) h this :
  zone eA = zone_ this → zone eB = zone_ this → zone lv = zone_ this →
  ownScope eA = Some A → ownScope eB = Some B →
  ownScope lv = None → eventType lv = eventTypes_scopeLeave this →
  pendingOutOfOrderEvents_ this = [] →
  (EventList_getLastEventTime (EventList_beginInserting (base this))
     ≤ time eA)%Z →
  (time eA ≤ time eB)%Z → (time lv < time eB)%Z →
  let mid := insertEvents [eA; eB; lv] (h, beginInserting this) in
  let st' := runBatch [eA; eB; lv] (h, this) in
  pendingOutOfOrderEvents_ (snd mid) = [lv] ∧
  Event_scope (fst st') lv = None ∧
  parent_ (getScope (fst st') B) = Some A ∧
  ∀ s, leaveEvent_ (getScope (fst st') s) = leaveEvent_ (getScope h s).
Proof.
  intros HzA HzB Hzl HA HB Hl1 Hl2 Hp T0 T1 T2 mid st'.
  assert (Hmid : mid =
    (Scope_addChild A B h,
     mkZoneIndex
       (EventList_insertEvent lv (EventList_insertEvent eB
          (EventList_insertEvent eA (EventList_beginInserting (base this)))))
       (zone_ this) (eventTypes_scopeLeave this) (Some B) (time eB) [lv])).
  { subst mid. rewrite !insertEvents_cons.
    rewrite (insertEvent_enter eA A) by done. simpl.
    rewrite (insertEvent_enter eB B) by done. simpl.
    rewrite insertEvent_deferred by done. simpl. by rewrite Hp. }
  assert (Hst : st' = endInserting mid) by done.
  rewrite Hst, Hmid, endInserting_unfold. simpl.
  apply Nat.eqb_eq in Hl2. rewrite Hl1, Hl2. simpl.
  split; [done|]. split; [by apply Event_scope_setScope|].
  split.
  - by rewrite getScope_setScope, parent_addChild.
  - intros s. by rewrite getScope_setScope, leaveEvent_addChild.
Qed.

(** C2 (as amended): a batch whose only deferred event is [e], an event of
    the index's zone earlier than the last in-order time when it arrives.
    [insertEvent] puts [e] on the pending list and touches nothing else.
    After [endInserting], if [e] is a scope-enter event, its scope has been
    added to the scope that [findEnclosingScope] returns for [e]'s time, if
    there is one, and nothing has been attached otherwise; if [e] is a leaf
    or a leave event, it has no scope (the local cursor is null), whether or
    not a scope encloses its time, and the scopes are as they were. *)
Theorem single_deferred_event (pre post : list Event) (e : Event) st :
  let st1 := insertEvents pre (fst st, beginInserting (snd st)) in
  let st2 := insertEvent e st1 in
  let st3 := insertEvents post st2 in
  pendingOutOfOrderEvents_ (snd st1) = [] →
  zone e = zone_ (snd st) →
  (time e < lastAddEventTime_ (snd st1))%Z →
  pendingOutOfOrderEvents_ (snd st3) = pendingOutOfOrderEvents_ (snd st2) →
  runBatch (pre ++ e :: post) st = endInserting st3 ∧
  pendingOutOfOrderEvents_ (snd st2) = [e] ∧
  fst st2 = fst st1 ∧
  (∀ s, ownScope e = Some s →
        fst (endInserting st3) =
        match EventList_findEnclosingScope (fst st3) (base (snd st3)) (time e)
        with
        | Some p => Scope_addChild p s (fst st3)
        | None => fst st3
        end) ∧
  (ownScope e = None →
        Event_scope (fst (endInserting st3)) e = None ∧
        scopes (fst (endInserting st3)) = scopes (fst st3)).
Proof.
  intros st1 st2 st3 Hp1 Hz Ht Hp3.
  assert (Hz1 : zone e = zone_ (snd st1)).
  { subst st1. by rewrite insertEvents_zone_. }
  assert (H2 : pendingOutOfOrderEvents_ (snd st2) = [e] ∧ fst st2 = fst st1).
  { subst st2. destruct st1 as [h1 this1]. simpl in *.
    rewrite insertEvent_deferred by done. simpl. by rewrite Hp1. }
  destruct H2 as [Hp2 Hh2].
  split.
  { unfold runBatch. by rewrite insertEvents_app, insertEvents_cons. }
  do 2 (split; [done|]).
  rewrite Hp2 in Hp3. destruct st3 as [h3 this3]. simpl in Hp3.
  rewrite endInserting_unfold, Hp3. simpl.
  split.
  - intros s Hs. rewrite Hs.
    by destruct (EventList_findEnclosingScope h3 (base this3) (time e)).
  - intros Hs. rewrite Hs.
    destruct (eventType e =? eventTypes_scopeLeave this3); simpl;
      (split; [by apply Event_scope_setScope | done]).
Qed.

End ZoneIndexFacts.

(** ** The list-backed EventList meets the storage contract *)

#[global] Instance ListEventList_storage : EventListStorage EventList.
Proof.
  split.
  - done.
  - done.
  - intros b. apply merge_sort_Permutation.
Qed.

(** ** Concrete batches *)

(** The batch of C1 on a fresh index: the leave at time 2 is deferred, and at
    the end of the batch scope A has not received it as its leave event. *)
Lemma deferred_leave_not_given_to_A :
  pendingOutOfOrderEvents_
    (snd (insertEvents [enterA; enterB; leaveAt2]
            (emptyHeap, beginInserting freshIndex))) = [leaveAt2] ∧
  leaveEvent_
    (getScope (fst (runBatch [enterA; enterB; leaveAt2]
                      (emptyHeap, freshIndex))) 10) ≠ Some leaveAt2.
Proof.
  split; [reflexivity|].
  intros H. vm_compute in H. discriminate H.
Qed.

Lemma deferred_leave_gets_no_scope_witness :
  let st' := runBatch [enterA; enterB; leaveAt2] (emptyHeap, freshIndex) in
  pendingOutOfOrderEvents_
    (snd (insertEvents [enterA; enterB; leaveAt2]
            (emptyHeap, beginInserting freshIndex))) = [leaveAt2] ∧
  Event_scope (fst st') leaveAt2 = None ∧
  parent_ (getScope (fst st') 11) = Some 10 ∧
  ∀ s, leaveEvent_ (getScope (fst st') s) = leaveEvent_ (getScope emptyHeap s).
Proof.
  apply (deferred_leave_gets_no_scope enterA enterB leaveAt2 10 11
           emptyHeap freshIndex); simpl; try reflexivity; lia.
Defined.

(** The single deferred event of C2 as a leaf: scope A spans times 0 to 10
    and the lookup finds it for time 5, but the leaf deferred at time 5 is
    not attached to it. *)
Lemma deferred_leaf_not_attached :
  let mid := insertEvents [enterA; leaveA; leafAt5]
               (emptyHeap, beginInserting freshIndex) in
  pendingOutOfOrderEvents_ (snd mid) = [leafAt5] ∧
  EventList_findEnclosingScope (fst mid) (base (snd mid)) (time leafAt5) =
    Some 10 ∧
  Event_scope (fst (runBatch [enterA; leaveA; leafAt5]
                      (emptyHeap, freshIndex))) leafAt5 ≠ Some 10.
Proof.
  split; [reflexivity|]. split; [reflexivity|].
  intros H. vm_compute in H. discriminate H.
Qed.

Lemma single_deferred_event_witness :
  let st := (emptyHeap, freshIndex) in
  let st3 := insertEvents [enterA; leaveA; enterCAt3]
               (emptyHeap, beginInserting freshIndex) in
  runBatch ([enterA; leaveA] ++ enterCAt3 :: []) st = endInserting st3 ∧
  pendingOutOfOrderEvents_ (snd st3) = [enterCAt3] ∧
  fst st3 = fst (insertEvents [enterA; leaveA]
                   (emptyHeap, beginInserting freshIndex)) ∧
  (∀ s, ownScope enterCAt3 = Some s →
        fst (endInserting st3) =
        match EventList_findEnclosingScope (fst st3) (base (snd st3))
                (time enterCAt3) with
        | Some p => Scope_addChild p s (fst st3)
        | None => fst st3
        end) ∧
  (ownScope enterCAt3 = None →
        Event_scope (fst (endInserting st3)) enterCAt3 = None ∧
        scopes (fst (endInserting st3)) = scopes (fst st3)).
Proof.
  exact (single_deferred_event [enterA; leaveA] [] enterCAt3
           (emptyHeap, freshIndex) eq_refl eq_refl eq_refl eq_refl).
Defined.



Lemma insertEvent_other_zone_noop_witness :
  Forall (λ e, zone e ≠ zone_ freshIndex)
         [otherZoneLeaf; otherZoneLeaf; otherZoneLeaf] ∧
  insertEvents [otherZoneLeaf; otherZoneLeaf; otherZoneLeaf]
    (emptyHeap, freshIndex) = (emptyHeap, freshIndex).
Proof.
  assert (H : Forall (λ e, zone e ≠ zone_ (snd (emptyHeap, freshIndex)))
                     [otherZoneLeaf; otherZoneLeaf; otherZoneLeaf]).
  { repeat (constructor; [simpl; lia|]). constructor. }
  split; [exact H|].
  exact (proj1 (insertEvent_other_zone_noop _ (emptyHeap, freshIndex) H)).
Defined.

Lemma nested_pairs_in_order_witness :
  let h' := fst (insertEvents [enterA; enterB; leaveB; leaveA]
                   (emptyHeap, beginInserting freshIndex)) in
  parent_ (getScope h' 11) = Some 10 ∧
  11 ∈ children_ (getScope h' 10) ∧
  leaveEvent_ (getScope h' 11) = Some leaveB ∧
  leaveEvent_ (getScope h' 10) = Some leaveA ∧
  Event_scope h' leaveA = Some 10 ∧
  (eid leaveB ≠ eid leaveA → Event_scope h' leaveB = Some 11).
Proof.
  apply (nested_pairs_in_order enterA enterB leaveB leaveA 10 11
           emptyHeap (beginInserting freshIndex));
    simpl; try reflexivity; lia.
Defined.

(** An unmatched in-order leave at time 10 changes what happens to a later
    enter event at time 5: without the leave it is inserted in order and
    becomes the cursor, after the leave it is deferred. *)
Lemma later_event_deferred_after_unmatched_leave :
  let st0 := (emptyHeap, beginInserting freshIndex) in
  (zone leaveA = zone_ (snd st0) ∧
   (lastAddEventTime_ (snd st0) ≤ time leaveA)%Z ∧
   ownScope leaveA = None ∧
   eventType leaveA = eventTypes_scopeLeave (snd st0) ∧
   currentScope_ (snd st0) = None) ∧
  currentScope_ (snd (insertEvent enterB st0)) = Some 11 ∧
  pendingOutOfOrderEvents_ (snd (insertEvent enterB st0)) = [] ∧
  currentScope_ (snd (insertEvent enterB (insertEvent leaveA st0))) = None ∧
  pendingOutOfOrderEvents_ (snd (insertEvent enterB (insertEvent leaveA st0)))
    = [enterB].
Proof.
  repeat split; try reflexivity. simpl. lia.
Qed.

Lemma unmatched_leave_in_order_witness :
  let st' := insertEvent leaveA (emptyHeap, beginInserting freshIndex) in
  EventList_events (base (snd st')) = [] ++ [leaveA] ∧
  Event_scope (fst st') leaveA = None ∧
  scopes (fst st') = scopes emptyHeap ∧
  currentScope_ (snd st') = None ∧
  pendingOutOfOrderEvents_ (snd st') = [] ∧
  lastAddEventTime_ (snd st') = time leaveA ∧
  ∀ e2, zone e2 = zone_ (beginInserting freshIndex) →
    (time leaveA ≤ time e2)%Z →
    let a := insertEvent e2 st' in
    let b := insertEvent e2 (emptyHeap, beginInserting freshIndex) in
    scopes (fst a) = scopes (fst b) ∧
    currentScope_ (snd a) = currentScope_ (snd b) ∧
    pendingOutOfOrderEvents_ (snd a) = pendingOutOfOrderEvents_ (snd b) ∧
    lastAddEventTime_ (snd a) = lastAddEventTime_ (snd b) ∧
    ∀ x, eid x ≠ eid leaveA → Event_scope (fst a) x = Event_scope (fst b) x.
Proof.
  refine (unmatched_leave_in_order leaveA emptyHeap
            (beginInserting freshIndex) eq_refl _ eq_refl eq_refl eq_refl).
  simpl. lia.
Defined.

Lemma batch_end_state_witness :
  let st' := runBatch [enterA; otherZoneLeaf; enterB; leaveAt2]
               (emptyHeap, freshIndex) in
  pendingOutOfOrderEvents_ (snd st') = [] ∧
  currentScope_ (snd st') = None ∧
  count_occ Event_eq_dec (EventList_events (base (snd st'))) leaveAt2 = 1.
Proof.
  pose proof (batch_end_state [enterA; otherZoneLeaf; enterB; leaveAt2]
                (emptyHeap, freshIndex)) as (Hp & Hc & _ & Hone).
  split; [exact Hp|]. split; [exact Hc|].
  apply Hone; [reflexivity | reflexivity | apply not_elem_of_nil].
Defined.

Lemma insertEvent_equal_time_in_order_witness :
  let st' := insertEvent enterDAt20 (emptyHeap, lateIndex) in
  time enterDAt20 = lastAddEventTime_ lateIndex ∧
  pendingOutOfOrderEvents_ (snd st') = [] ∧
  currentScope_ (snd st') = Some 13.
Proof.
  pose proof (insertEvent_equal_time_in_order enterDAt20 emptyHeap lateIndex
                eq_refl eq_refl) as (_ & Hp & Henter & _).
  split; [reflexivity|]. split; [exact Hp|].
  exact (proj1 (Henter 13 eq_refl)).
Defined.

Lemma insertEvent_deferred_frame_witness :
  let st' := insertEvent leafAt5 (emptyHeap, lateIndex) in
  (time leafAt5 < lastAddEventTime_ lateIndex)%Z ∧
  lastAddEventTime_ (snd st') = 20%Z ∧
  currentScope_ (snd st') = None ∧
  pendingOutOfOrderEvents_ (snd st') = [] ++ [leafAt5] ∧
  fst st' = emptyHeap.
Proof.
  pose proof (insertEvent_deferred_frame leafAt5 (emptyHeap, lateIndex)
                eq_refl eq_refl) as (Ht & Hc & Hp & Hh & _).
  split; [reflexivity|]. split; [exact Ht|]. split; [exact Hc|].
  split; [exact Hp | exact Hh].
Defined.

Lemma orphan_scope_is_cursor_witness :
  let h' := fst (endInserting (emptyHeap, orphanIndex)) in
  EventList_findEnclosingScope emptyHeap (base orphanIndex) (time enterCAt3)
    = None ∧
  (∀ p, parent_ (getScope h' p) = parent_ (getScope emptyHeap p) ∧
        children_ (getScope h' p) = children_ (getScope emptyHeap p)) ∧
  (∀ x, x ∈ [leafAt5] ++ option_list (Some leaveA) →
        Event_scope h' x = Some 12) ∧
  (∀ lv, Some leaveA = Some lv → leaveEvent_ (getScope h' 12) = Some lv).
Proof.
  split; [reflexivity|].
  apply (orphan_scope_is_cursor [] [leafAt5] enterCAt3 (Some leaveA) 12
           emptyHeap orphanIndex emptyHeap None).
  - reflexivity.
  - reflexivity.
  - reflexivity.
  - reflexivity.
  - constructor; [|constructor]. split; [reflexivity|]. simpl. lia.
  - intros lv [= <-]. split; reflexivity.
Defined.

(** * Further properties of the index *)

Section ZoneIndexBatch.
Context {EL : Type} `{!EventListBase EL}.
Implicit Types (e x : Event) (h : Heap) (this : ZoneIndex EL)
  (st : Heap * ZoneIndex EL).

Lemma insertEvent_lastAddEventTime e st :
  (lastAddEventTime_ (snd st) ≤ lastAddEventTime_ (snd (insertEvent e st)))%Z.
Proof.
  destruct (decide (zone e = zone_ (snd st))) as [Hz|Hz].
  - rewrite insertEvent_same_zone by done. simpl.
    destruct (Z.lt_ge_cases (time e) (lastAddEventTime_ (snd st))) as [Ht|Ht].
    + rewrite classify_out_of_order by done. simpl. lia.
    + rewrite classify_in_order by done.
      pose proof (inOrder_frame e st) as (_ & _ & _ & Hl & _).
      rewrite Hl. done.
  - rewrite insertEvent_other_zone by done. lia.
Qed.

Lemma insertEvents_lastAddEventTime (es : list Event) st :
  (lastAddEventTime_ (snd st) ≤
   lastAddEventTime_ (snd (insertEvents es st)))%Z.
Proof.
  revert st. induction es as [|e es IH]; intros st; [simpl; lia|].
  rewrite insertEvents_cons.
  etrans; [apply (insertEvent_lastAddEventTime e)|apply IH].
Qed.

(** X1: within a batch the last in-order time never moves backwards,
    whatever is inserted, and [endInserting] leaves it where the insertions
    brought it. *)
Theorem lastAddEventTime_never_decreases (es : list Event) st :
  (lastAddEventTime_ (snd st) ≤
   lastAddEventTime_ (snd (insertEvents es st)))%Z ∧
  lastAddEventTime_ (snd (endInserting (insertEvents es st))) =
  lastAddEventTime_ (snd (insertEvents es st)).
Proof.
  split; [apply insertEvents_lastAddEventTime|].
  destruct (insertEvents es st) as [h this].
  by rewrite endInserting_unfold.
Qed.

Lemma insertEvent_pending e st :
  pendingOutOfOrderEvents_ (snd (insertEvent e st)) =
  pendingOutOfOrderEvents_ (snd st) ++
    (if decide (zone e = zone_ (snd st) ∧
                (time e < lastAddEventTime_ (snd st))%Z)
     then [e] else []).
Proof.
  destruct (decide (zone e = zone_ (snd st))) as [Hz|Hz].
  - rewrite insertEvent_same_zone by done. simpl.
    destruct (Z.lt_ge_cases (time e) (lastAddEventTime_ (snd st))) as [Ht|Ht].
    + rewrite classify_out_of_order by done. simpl.
      by rewrite decide_True.
    + rewrite classify_in_order by done.
      pose proof (inOrder_frame e st) as (_ & _ & _ & _ & Hp).
      rewrite Hp, decide_False, app_nil_r; [done|lia].
  - rewrite insertEvent_other_zone by done.
    rewrite decide_False, app_nil_r; [done|tauto].
Qed.

Lemma insertEvents_pending (es : list Event) st :
  ∃ l, pendingOutOfOrderEvents_ (snd (insertEvents es st)) =
         pendingOutOfOrderEvents_ (snd st) ++ l ∧
       l `sublist_of` filter (λ e, zone e = zone_ (snd st)) es ∧
       Forall (λ e, (time e <
                     lastAddEventTime_ (snd (insertEvents es st)))%Z) l.
Proof.
  revert st. induction es as [|e es IH]; intros st.
  - exists []. simpl. rewrite app_nil_r. repeat split; constructor.
  - rewrite insertEvents_cons.
    destruct (IH (insertEvent e st)) as (l & Hp & Hsub & Hall).
    rewrite insertEvent_zone_ in Hsub.
    rewrite Hp, insertEvent_pending, <- app_assoc.
    eexists. split; [reflexivity|]. rewrite filter_cons.
    case_decide as Hd.
    + destruct Hd as [Hz Ht]. rewrite decide_True by done. simpl.
      split; [by apply sublist_skip|].
      constructor; [|done].
      assert (Hl : lastAddEventTime_ (snd (insertEvent e st)) =
                   lastAddEventTime_ (snd st)).
      { destruct st as [h this]. by rewrite insertEvent_deferred. }
      pose proof (insertEvents_lastAddEventTime es (insertEvent e st)) as Hm.
      lia.
    + simpl. split; [|done].
      case_decide; [by apply sublist_cons|done].
Qed.

(** X2: the pending list only grows during a batch, and what is added is
    a subsequence of the inserted events of the index's zone, in insertion
    order; each added event is earlier than the last in-order time reached. *)
Theorem pending_grows_by_zone_events (es : list Event) st :
  ∃ l, pendingOutOfOrderEvents_ (snd (insertEvents es st)) =
         pendingOutOfOrderEvents_ (snd st) ++ l ∧
       l `sublist_of` filter (λ e, zone e = zone_ (snd st)) es ∧
       Forall (λ e, zone e = zone_ (snd st) ∧
                    (time e <
                     lastAddEventTime_ (snd (insertEvents es st)))%Z) l.
Proof.
  destruct (insertEvents_pending es st) as (l & Hp & Hsub & Hall).
  exists l. split; [done|]. split; [done|].
  apply Forall_forall. intros e He. split.
  - pose proof (elem_of_sublist _ _ _ He Hsub) as Hin.
    by apply list_elem_of_filter in Hin as [Hz _].
  - by apply (proj1 (Forall_forall _ _) Hall).
Qed.

Lemma insertEvent_in_order_lastAddEventTime e st :
  zone e = zone_ (snd st) → (lastAddEventTime_ (snd st) ≤ time e)%Z →
  lastAddEventTime_ (snd (insertEvent e st)) = time e.
Proof.
  intros Hz Ht. rewrite insertEvent_same_zone by done. simpl.
  rewrite classify_in_order by done.
  apply (inOrder_frame e st).
Qed.

Lemma insertEvents_in_order_pending (es : list Event) st :
  nondecreasingFrom (lastAddEventTime_ (snd st))
    (filter (λ e, zone e = zone_ (snd st)) es) = true →
  pendingOutOfOrderEvents_ (snd (insertEvents es st)) =
  pendingOutOfOrderEvents_ (snd st).
Proof.
  revert st. induction es as [|e es IH]; intros st Hs; [done|].
  rewrite insertEvents_cons. rewrite filter_cons in Hs.
  case_decide as Hz.
  - simpl in Hs. apply andb_true_iff in Hs as [Ht Hs].
    apply Z.leb_le in Ht.
    rewrite IH.
    + rewrite insertEvent_pending, decide_False, app_nil_r; [done|lia].
    + by rewrite insertEvent_zone_, insertEvent_in_order_lastAddEventTime.
  - rewrite insertEvent_other_zone by done. by apply IH.
Qed.

Lemma endInserting_nothing_pending h this :
  pendingOutOfOrderEvents_ this = [] → fst (endInserting (h, this)) = h.
Proof. intros Hp. by rewrite endInserting_unfold, Hp. Qed.

(** X3: a batch that arrives in order defers nothing.  When the events of
    the index's zone have non-decreasing times starting at or after the last
    in-order time, the pending list is as it was before the insertions; with
    nothing pending, [endInserting] then leaves the store as the insertions
    built it. *)
Theorem in_order_batch_defers_nothing (es : list Event) st :
  nondecreasingFrom (lastAddEventTime_ (snd st))
    (filter (λ e, zone e = zone_ (snd st)) es) = true →
  pendingOutOfOrderEvents_ (snd (insertEvents es st)) =
    pendingOutOfOrderEvents_ (snd st) ∧
  (pendingOutOfOrderEvents_ (snd st) = [] →
   fst (endInserting (insertEvents es st)) = fst (insertEvents es st)).
Proof.
  intros Hs. pose proof (insertEvents_in_order_pending es st Hs) as Hp.
  split; [done|]. intros Hnil. rewrite Hnil in Hp.
  destruct (insertEvents es st) as [h this].
  by apply endInserting_nothing_pending.
Qed.

(** The [scope] field of an event other than the one handled is not
    written. *)
Lemma insertEvent_eventScope e st (k : nat) :
  k ≠ eid e →
  eventScope (fst (insertEvent e st)) !! k = eventScope (fst st) !! k.
Proof.
  intros Hk. destruct (decide (zone e = zone_ (snd st))) as [Hz|Hz].
  - rewrite insertEvent_same_zone by done. simpl.
    unfold insertEvent_classify.
    destruct (time e <? lastAddEventTime_ (snd st))%Z; [done|].
    destruct st as [h this]. unfold insertEvent_inOrder. simpl.
    destruct (ownScope e); simpl.
    { by destruct (currentScope_ this). }
    destruct (eventType e =? eventTypes_scopeLeave this);
      destruct (currentScope_ this); simpl;
      rewrite ?lookup_insert_ne, ?lookup_delete_ne by done; done.
  - by rewrite insertEvent_other_zone.
Qed.

Lemma insertEvents_eventScope (es : list Event) st (k : nat) :
  k ∉ map eid (filter (λ e, zone e = zone_ (snd st)) es) →
  eventScope (fst (insertEvents es st)) !! k = eventScope (fst st) !! k.
Proof.
  revert st. induction es as [|e es IH]; intros st Hk; [done|].
  rewrite insertEvents_cons. rewrite filter_cons in Hk.
  case_decide as Hz.
  - simpl in Hk. apply not_elem_of_cons in Hk as [Hne Hk].
    rewrite IH by (by rewrite insertEvent_zone_).
    by apply insertEvent_eventScope.
  - rewrite insertEvent_other_zone by done. by apply IH.
Qed.

Lemma endInserting_step_eventScope this (st : Heap * option nat) e (k : nat) :
  k ≠ eid e →
  eventScope (fst (endInserting_step this st e)) !! k =
  eventScope (fst st) !! k.
Proof.
  intros Hk. destruct st as [h cur]. unfold endInserting_step.
  destruct (ownScope e); simpl.
  { by destruct (EventList_findEnclosingScope h (base this) (time e)). }
  destruct (eventType e =? eventTypes_scopeLeave this);
    destruct cur; simpl;
    rewrite ?lookup_insert_ne, ?lookup_delete_ne by done; done.
Qed.

Lemma endInserting_loop_eventScope this (l : list Event)
    (st : Heap * option nat) (k : nat) :
  k ∉ map eid l →
  eventScope (fst (fold_left (endInserting_step this) l st)) !! k =
  eventScope (fst st) !! k.
Proof.
  revert st. induction l as [|e l IH]; intros st Hk; [done|].
  simpl in *. apply not_elem_of_cons in Hk as [Hne Hk].
  rewrite IH by done. by apply endInserting_step_eventScope.
Qed.

Lemma Event_scope_lookup h h' x :
  eventScope h' !! eid x = eventScope h !! eid x →
  Event_scope h' x = Event_scope h x.
Proof. unfold Event_scope. by intros ->. Qed.

(** X4: a batch writes the [scope] field of no event but those it handles:
    an event that is neither pending when the batch starts nor an inserted
    event of the index's zone has the same scope after the batch as
    before. *)
Theorem batch_writes_only_handled_events (es : list Event) st x :
  eid x ∉ map eid (pendingOutOfOrderEvents_ (snd st) ++
                   filter (λ e, zone e = zone_ (snd st)) es) →
  Event_scope (fst (runBatch es st)) x = Event_scope (fst st) x.
Proof.
  intros Hx. rewrite map_app in Hx.
  apply not_elem_of_app in Hx as [Hx1 Hx2].
  apply Event_scope_lookup. unfold runBatch.
  set (st0 := (fst st, beginInserting (snd st))).
  destruct (insertEvents_pending es st0) as (l & Hp & Hsub & _).
  assert (Hmid : eventScope (fst (insertEvents es st0)) !! eid x =
                 eventScope (fst st) !! eid x).
  { by rewrite insertEvents_eventScope. }
  destruct (insertEvents es st0) as [h1 this1].
  rewrite endInserting_unfold. simpl in *.
  rewrite endInserting_loop_eventScope; [done|].
  rewrite Hp, map_app. apply not_elem_of_app. split; [done|].
  intros Hin. apply Hx2.
  apply list_elem_of_fmap in Hin as (y & -> & Hy).
  apply list_elem_of_fmap. exists y. split; [done|].
  by apply (elem_of_sublist _ _ _ Hy).
Qed.

(** X5: [insertEvent] writes to at most two scopes, the one under the cursor
    and the one the event carries; every other scope object is as before. *)
Theorem insertEvent_touches_cursor_and_own_scope e st (s : nat) :
  currentScope_ (snd st) ≠ Some s → ownScope e ≠ Some s →
  getScope (fst (insertEvent e st)) s = getScope (fst st) s.
Proof.
  intros Hc Ho. destruct (decide (zone e = zone_ (snd st))) as [Hz|Hz].
  - rewrite insertEvent_same_zone by done. simpl.
    unfold insertEvent_classify.
    destruct (time e <? lastAddEventTime_ (snd st))%Z; [done|].
    destruct st as [h this]. unfold insertEvent_inOrder. simpl in *.
    destruct (ownScope e) as [s'|]; simpl.
    + destruct (currentScope_ this) as [c|]; [|done].
      unfold Scope_addChild. rewrite !getScope_putScope.
      rewrite !decide_False; [done|congruence|congruence].
    + destruct (eventType e =? eventTypes_scopeLeave this);
        destruct (currentScope_ this) as [c|]; simpl; try done.
      unfold Scope_setLeaveEvent. rewrite getScope_putScope.
      rewrite decide_False; [done|congruence].
  - by rewrite insertEvent_other_zone.
Qed.

(** X6: the reconciliation pass tracks one open level only.  A deferred
    leave event clears the local cursor instead of moving up to a parent, so
    a second deferred leave right after it is associated with no scope and
    closes none. *)
Theorem deferred_leave_does_not_walk_up (pre : list Event) (l1 l2 : Event)
    h this :
  pendingOutOfOrderEvents_ this = pre ++ [l1; l2] →
  ownScope l1 = None → eventType l1 = eventTypes_scopeLeave this →
  ownScope l2 = None → eventType l2 = eventTypes_scopeLeave this →
  let mid := fold_left (endInserting_step this) (pre ++ [l1]) (h, None) in
  snd mid = None ∧
  scopes (fst (endInserting (h, this))) = scopes (fst mid) ∧
  Event_scope (fst (endInserting (h, this))) l2 = None.
Proof.
  intros Hp H1 T1 H2 T2 mid. subst mid.
  apply Nat.eqb_eq in T1, T2.
  rewrite endInserting_unfold, Hp.
  change (pre ++ [l1; l2]) with (pre ++ [l1] ++ [l2]).
  rewrite app_assoc, (fold_left_app _ (pre ++ [l1]) [l2]).
  rewrite (fold_left_app _ pre [l1]).
  destruct (fold_left (endInserting_step this) pre (h, None)) as [h0 c0].
  simpl. rewrite H1, T1.
  destruct c0 as [c|]; unfold endInserting_step; rewrite H2, T2; simpl;
    (split; [done|]; split; [done|]; by apply Event_scope_setScope).
Qed.

(** X7: a whole scope that arrives late.  When the lookup finds an enclosing
    scope for a deferred enter event, the reconciliation pass adds the new
    scope to it, associates the deferred leaf events that follow with the new
    scope, and records the deferred leave event after them as its leave
    event. *)
Theorem deferred_scope_run_attached (pre leafs : list Event) (eS lv : Event)
    (S p : nat) h this h1 c1 :
  pendingOutOfOrderEvents_ this = pre ++ eS :: leafs ++ [lv] →
  fold_left (endInserting_step this) pre (h, None) = (h1, c1) →
  ownScope eS = Some S →
  EventList_findEnclosingScope h1 (base this) (time eS) = Some p →
  Forall (λ x, ownScope x = None ∧
               eventType x ≠ eventTypes_scopeLeave this) leafs →
  ownScope lv = None → eventType lv = eventTypes_scopeLeave this →
  let h' := fst (endInserting (h, this)) in
  parent_ (getScope h' S) = Some p ∧
  children_ (getScope h' p) = children_ (getScope h1 p) ++ [S] ∧
  (∀ x, x ∈ leafs ++ [lv] → Event_scope h' x = Some S) ∧
  leaveEvent_ (getScope h' S) = Some lv.
Proof.
  intros Hp Hpre HS Hfind Hleafs Hl1 Hl2 h'. subst h'.
  apply Nat.eqb_eq in Hl2.
  rewrite endInserting_unfold, Hp. simpl.
  rewrite fold_left_app, Hpre. simpl. rewrite HS, Hfind.
  rewrite fold_left_app.
  destruct (endInserting_leaf_run this leafs (Scope_addChild p S h1)
              (Some S) Hleafs) as (h2 & -> & Hs2 & Hk2).
  simpl. rewrite Hl1, Hl2. simpl.
  assert (Hget : ∀ s, getScope h2 s = getScope (Scope_addChild p S h1) s).
  { intros s. unfold getScope. by rewrite Hs2. }
  split; [|split; [|split]].
  - by rewrite parent_setLeaveEvent, getScope_setScope, Hget, parent_addChild.
  - rewrite children_setLeaveEvent, getScope_setScope, Hget,
      children_addChild.
    by rewrite decide_True.
  - intros x Hx. unfold Event_scope. simpl.
    apply elem_of_app in Hx as [Hx|Hx].
    + rewrite (proj1 (proj1 (Forall_forall _ _) Hleafs x Hx)).
      destruct (decide (eid lv = eid x)) as [->|Hne];
        [by rewrite lookup_insert_eq|].
      rewrite lookup_insert_ne, Hk2 by done.
      rewrite decide_True; [done|]. apply list_elem_of_fmap. by exists x.
    + apply list_elem_of_singleton in Hx as ->.
      by rewrite Hl1, lookup_insert_eq.
  - rewrite leaveEvent_setLeaveEvent. by rewrite decide_True.
Qed.

(** ** The cursor and its parent back-references as a stack *)

Lemma parentChain_ext h h1 (stk : list nat) :
  (∀ y : nat, y ∈ stk → parent_ (getScope h1 y) = parent_ (getScope h y)) →
  parentChain h stk → parentChain h1 stk.
Proof.
  induction stk as [|s rest IH]; intros Hext Hc; [done|].
  destruct Hc as [Hs Hrest]. split.
  - rewrite Hext; [done|]. apply elem_of_cons; auto.
  - apply IH; [|done]. intros y Hx. apply Hext, elem_of_cons; auto.
Qed.

Lemma omap_ownScope_enter e (es : list Event) (s : nat) :
  ownScope e = Some s → omap ownScope (e :: es) = s :: omap ownScope es.
Proof. intros Hs. simpl. by rewrite Hs. Qed.

Lemma omap_ownScope_other e (es : list Event) :
  ownScope e = None → omap ownScope (e :: es) = omap ownScope es.
Proof. intros Hs. simpl. by rewrite Hs. Qed.

Lemma explicitStack_enter (t : nat) (stk : list nat) e (es : list Event)
    (s : nat) :
  ownScope e = Some s →
  explicitStack_run t stk (e :: es) = explicitStack_run t (s :: stk) es ∧
  explicitStack_leaves t stk (e :: es) = explicitStack_leaves t (s :: stk) es.
Proof.
  intros Hs. unfold explicitStack_run. simpl.
  unfold explicitStack_step at 2 4. rewrite Hs. by destruct stk.
Qed.

Lemma explicitStack_leave (t : nat) (stk : list nat) e (es : list Event) :
  ownScope e = None → eventType e = t →
  explicitStack_run t stk (e :: es) = explicitStack_run t (tail stk) es ∧
  explicitStack_leaves t stk (e :: es) =
    match stk with
    | c :: _ => [(c, e)]
    | [] => []
    end ++ explicitStack_leaves t (tail stk) es.
Proof.
  intros Hs Hl. apply Nat.eqb_eq in Hl. unfold explicitStack_run. simpl.
  unfold explicitStack_step at 2 4. rewrite Hs, Hl. by destruct stk.
Qed.

Lemma explicitStack_other (t : nat) (stk : list nat) e (es : list Event) :
  ownScope e = None → eventType e ≠ t →
  explicitStack_run t stk (e :: es) = explicitStack_run t stk es ∧
  explicitStack_leaves t stk (e :: es) = explicitStack_leaves t stk es.
Proof.
  intros Hs Hl. apply Nat.eqb_neq in Hl. unfold explicitStack_run. simpl.
  unfold explicitStack_step at 2 4. rewrite Hs, Hl. by destruct stk.
Qed.

Lemma cursor_tracks_stack (es : list Event) h this (stk : list nat) :
  Forall (λ e, zone e = zone_ this) es →
  nondecreasingFrom (lastAddEventTime_ this) es = true →
  currentScope_ this = head stk →
  parentChain h stk →
  NoDup (stk ++ omap ownScope es) →
  (∀ s, s ∈ omap ownScope es → parent_ (getScope h s) = None) →
  let st' := insertEvents es (h, this) in
  let stk' := explicitStack_run (eventTypes_scopeLeave this) stk es in
  currentScope_ (snd st') = head stk' ∧
  parentChain (fst st') stk' ∧
  (∀ s l, (s, l) ∈ explicitStack_leaves (eventTypes_scopeLeave this) stk es →
          leaveEvent_ (getScope (fst st') s) = Some l) ∧
  (∀ s, s ∉ stk ++ omap ownScope es →
        leaveEvent_ (getScope (fst st') s) = leaveEvent_ (getScope h s)).
Proof.
  revert h this stk.
  induction es as [|e es IH]; intros h this stk Hz Ht Hcur Hchain Hnd Hfresh.
  { simpl. split; [done|]. split; [done|]. split; [|done].
    intros s l Hin. by apply elem_of_nil in Hin. }
  apply Forall_cons in Hz as [Hze Hz].
  simpl in Ht. apply andb_true_iff in Ht as [Hte Ht]. apply Z.leb_le in Hte.
  cbv zeta. rewrite insertEvents_cons.
  destruct (ownScope e) as [s|] eqn:Hs.
  - (* Scope enter event. *)
    destruct (explicitStack_enter (eventTypes_scopeLeave this) stk e es s Hs)
      as [-> ->].
    rewrite (insertEvent_enter e s) by done.
    rewrite (omap_ownScope_enter e es s Hs) in Hnd, Hfresh |- *.
    assert (Hnd' : NoDup ((s :: stk) ++ omap ownScope es)).
    { simpl. by rewrite Permutation_middle. }
    set (h1 := match currentScope_ this with
               | Some c => Scope_addChild c s h
               | None => h
               end).
    assert (Hpar : ∀ y, y ≠ s →
                        parent_ (getScope h1 y) = parent_ (getScope h y)).
    { intros y Hx. subst h1. destruct (currentScope_ this); [|done].
      by apply parent_addChild_ne. }
    assert (Hlv : ∀ y, leaveEvent_ (getScope h1 y) = leaveEvent_ (getScope h y)).
    { intros y. subst h1. destruct (currentScope_ this); [|done].
      apply leaveEvent_addChild. }
    simpl in Hnd'. apply NoDup_cons in Hnd' as [Hs_new Hnd_rest].
    apply not_elem_of_app in Hs_new as [Hs_stk Hs_es].
    edestruct (IH h1 (mkZoneIndex (EventList_insertEvent e (base this))
                        (zone_ this) (eventTypes_scopeLeave this) (Some s)
                        (time e) (pendingOutOfOrderEvents_ this)) (s :: stk))
      as (I1 & I2 & I3 & I4); try done.
    + simpl. split.
      * subst h1. rewrite Hcur. destruct stk as [|c rest]; simpl.
        -- apply Hfresh, elem_of_cons; auto.
        -- apply parent_addChild.
      * apply (parentChain_ext h); [|done].
        intros y Hx. apply Hpar. by intros ->.
    + simpl. apply NoDup_cons. split; [|done].
      apply not_elem_of_app; auto.
    + intros y Hx. rewrite Hpar.
      * apply Hfresh, elem_of_cons; auto.
      * by intros ->.
    + simpl in I1, I2, I3, I4. split; [done|]. split; [done|]. split; [done|].
      intros y Hx. rewrite I4, Hlv; [done|].
      intros Hin. apply Hx.
      apply elem_of_cons in Hin as [->|Hin].
      * apply elem_of_app. right. apply elem_of_cons; auto.
      * apply elem_of_app in Hin as [Hin|Hin]; apply elem_of_app;
          [left|right]; [done|]. apply elem_of_cons; auto.
  - rewrite (omap_ownScope_other e es Hs) in Hnd, Hfresh |- *.
    destruct (eventType e =? eventTypes_scopeLeave this) eqn:Hl.
    + (* Scope leave event. *)
      apply Nat.eqb_eq in Hl.
      destruct (explicitStack_leave (eventTypes_scopeLeave this) stk e es
                  Hs Hl) as [-> ->].
      destruct stk as [|c rest]; simpl in Hcur.
      * rewrite (insertEvent_leave_unmatched e) by done.
        edestruct (IH (Event_setScope e None h)
                     (mkZoneIndex (EventList_insertEvent e (base this))
                        (zone_ this) (eventTypes_scopeLeave this) None
                        (time e) (pendingOutOfOrderEvents_ this)) [])
          as (I1 & I2 & I3 & I4); try done.
      * rewrite (insertEvent_leave_open e c) by done.
        destruct Hchain as [Hc Hrest].
        simpl in Hnd. apply NoDup_cons in Hnd as [Hc_new Hnd].
        edestruct (IH (Scope_setLeaveEvent c e (Event_setScope e (Some c) h))
                     (mkZoneIndex (EventList_insertEvent e (base this))
                        (zone_ this) (eventTypes_scopeLeave this)
                        (parent_ (getScope h c))
                        (time e) (pendingOutOfOrderEvents_ this)) rest)
          as (I1 & I2 & I3 & I4); try done.
        -- apply (parentChain_ext h); [|done].
           intros y _.
           by rewrite parent_setLeaveEvent, getScope_setScope.
        -- intros y Hx.
           rewrite parent_setLeaveEvent, getScope_setScope. by apply Hfresh.
        -- simpl in I1, I2, I3, I4. split; [done|]. split; [done|]. split.
           ++ intros s l Hin. apply elem_of_cons in Hin as [[= -> ->]|Hin].
              ** rewrite I4 by done. rewrite leaveEvent_setLeaveEvent.
                 by rewrite decide_True.
              ** by apply I3.
           ++ intros y Hx. apply not_elem_of_cons in Hx as [Hxc Hx].
              rewrite I4 by done.
              rewrite leaveEvent_setLeaveEvent, decide_False by done.
              by rewrite getScope_setScope.
    + (* Any other event. *)
      apply Nat.eqb_neq in Hl.
      destruct (explicitStack_other (eventTypes_scopeLeave this) stk e es
                  Hs Hl) as [-> ->].
      rewrite (insertEvent_leaf e) by done.
      edestruct (IH (match currentScope_ this with
                     | Some c => Event_setScope e (Some c) h
                     | None => h
                     end)
                   (mkZoneIndex (EventList_insertEvent e (base this))
                      (zone_ this) (eventTypes_scopeLeave this)
                      (currentScope_ this)
                      (time e) (pendingOutOfOrderEvents_ this)) stk)
        as (I1 & I2 & I3 & I4); try done.
      * apply (parentChain_ext h); [|done].
        intros y _. by destruct (currentScope_ this).
      * intros y Hx. rewrite <- (Hfresh y Hx).
        by destruct (currentScope_ this).
      * simpl in I1, I2, I3, I4. split; [done|]. split; [done|]. split; [done|].
        intros y Hx. rewrite I4 by done. by destruct (currentScope_ this).
Qed.

(** X8: on an in-order run the single cursor, together with the parent
    back-references, behaves as an explicit stack of open scopes.  Starting
    with no scope open, for events of the index's zone with non-decreasing
    times and distinct, not yet attached scopes, the cursor after the run is
    the top of the stack that pushes on enter and pops on leave, and every
    leave event that pops a scope is recorded as that scope's leave event. *)
Theorem cursor_realizes_explicit_stack (es : list Event) h this :
  Forall (λ e, zone e = zone_ this) es →
  nondecreasingFrom (lastAddEventTime_ this) es = true →
  currentScope_ this = None →
  NoDup (omap ownScope es) →
  (∀ s, s ∈ omap ownScope es → parent_ (getScope h s) = None) →
  let st' := insertEvents es (h, this) in
  currentScope_ (snd st') =
    head (explicitStack_run (eventTypes_scopeLeave this) [] es) ∧
  ∀ s l, (s, l) ∈ explicitStack_leaves (eventTypes_scopeLeave this) [] es →
         leaveEvent_ (getScope (fst st') s) = Some l.
Proof.
  intros Hz Ht Hc Hnd Hfresh.
  destruct (cursor_tracks_stack es h this [] Hz Ht Hc I Hnd Hfresh)
    as (H1 & _ & H3 & _).
  by split.
Qed.

(** X16: a scope left open at the end of a batch is not continued by the
    next one.  [beginInserting] starts the next batch with no scope open, so
    the first in-order enter event of that batch is attached to no scope:
    the store is as the previous batch left it, and the new scope becomes
    the cursor. *)
Theorem open_scope_not_continued (es : list Event) e (s : nat) st :
  let st1 := runBatch es st in
  zone e = zone_ (snd st) → ownScope e = Some s →
  (EventList_getLastEventTime (EventList_beginInserting (base (snd st1)))
     ≤ time e)%Z →
  let st2 := insertEvent e (fst st1, beginInserting (snd st1)) in
  fst st2 = fst st1 ∧
  currentScope_ (snd st2) = Some s ∧
  pendingOutOfOrderEvents_ (snd st2) = [].
Proof.
  intros st1 Hz Hs Ht st2. subst st2.
  assert (Hz1 : zone_ (snd st1) = zone_ (snd st)).
  { subst st1. unfold runBatch.
    pose proof (insertEvents_zone_ es (fst st, beginInserting (snd st)))
      as Hzz.
    destruct (insertEvents es (fst st, beginInserting (snd st)))
      as [h1 this1].
    rewrite endInserting_unfold. simpl in *. done. }
  assert (Hp1 : pendingOutOfOrderEvents_ (snd st1) = []).
  { subst st1. unfold runBatch.
    destruct (insertEvents es (fst st, beginInserting (snd st)))
      as [h1 this1].
    by rewrite endInserting_unfold. }
  rewrite (insertEvent_enter e s) by (simpl; congruence).
  simpl. by rewrite Hp1.
Qed.

End ZoneIndexBatch.

(** * Properties of the paint contexts *)

Section PaintContextFacts.
Context {N : Type} `{!JsNumber N}.
Variable canvasWidth canvasHeight : nat → N.
Variable getCanvasPixelRatio : nat → N.
Variable repaintInternal : nat → N → N → bool.
Implicit Types (w : PaintWorld N) (o : PaintContext) (this r p c : nat).

Lemma requestRepaint_walk_enough fuel this w :
  paintWorld_wf w → is_Some (contexts w !! this) → this < fuel →
  is_Some (requestRepaint_walk fuel this w).
Proof.
  intros Hwf. revert this.
  induction fuel as [|fuel IH]; intros this [o Ho] Hlt; [lia|].
  simpl. rewrite Ho.
  destruct (parentContext_ o) as [p|] eqn:Hp.
  - destruct (Hwf this o Ho) as [_ Hpar].
    destruct (Hpar p Hp) as [Hlt' Hsome].
    apply IH; [done|lia].
  - by destruct (repaintPending_ o).
Qed.

Lemma requestRepaint_walk_rootContext fuel this w :
  requestRepaint_walk fuel this w =
  r ← rootContext_walk fuel this w;
  o ← contexts w !! r;
  Some (requested r o w).
Proof.
  revert this. induction fuel as [|fuel IH]; intros this; [done|].
  simpl. destruct (contexts w !! this) as [o|] eqn:Ho; [|done].
  destruct (parentContext_ o) as [p|] eqn:Hp; [apply IH|].
  simpl. rewrite Ho. simpl. unfold requested.
  by destruct (repaintPending_ o).
Qed.

Lemma rootContext_walk_is_root fuel this w r :
  rootContext_walk fuel this w = Some r →
  ∃ o, contexts w !! r = Some o ∧ parentContext_ o = None.
Proof.
  revert this. induction fuel as [|fuel IH]; intros this Hr; [done|].
  simpl in Hr. destruct (contexts w !! this) as [o|] eqn:Ho; [|done].
  destruct (parentContext_ o) as [p|] eqn:Hp; [by apply (IH p)|].
  injection Hr as <-. by exists o.
Qed.

(** A request changes no parent reference, so the roots stay the same. *)
Lemma rootContext_walk_requested fuel this w r o :
  contexts w !! r = Some o →
  rootContext_walk fuel this (requested r o w) = rootContext_walk fuel this w.
Proof.
  intros Hr. unfold requested. destruct (repaintPending_ o); [done|].
  revert this. induction fuel as [|fuel IH]; intros this; [done|].
  simpl. destruct (decide (r = this)) as [->|Hne].
  - rewrite lookup_insert_eq, Hr. simpl.
    destruct (parentContext_ o); [apply IH|done].
  - rewrite lookup_insert_ne by done.
    destruct (contexts w !! this) as [o'|]; [|done].
    destruct (parentContext_ o'); [apply IH|done].
Qed.

Lemma requested_pending r o w :
  contexts w !! r = Some o →
  ∃ o', contexts (requested r o w) !! r = Some o' ∧
        repaintPending_ o' = true.
Proof.
  intros Hr. unfold requested.
  destruct (repaintPending_ o) eqn:Hp.
  - by exists o.
  - exists (set_repaintPending true o). simpl.
    by rewrite lookup_insert_eq.
Qed.

(** X9: in a well-formed store [requestRepaint] always comes back: from any
    context it reaches a root of the tree, and the outcome is that this root
    has its pending flag set and, if the flag was clear, that exactly one
    callback for the root has been deferred; nothing else changes. *)
Theorem requestRepaint_reaches_root this w :
  paintWorld_wf w → is_Some (contexts w !! this) →
  ∃ r o, rootContext this w = Some r ∧
         contexts w !! r = Some o ∧ parentContext_ o = None ∧
         requestRepaint this w = Some (requested r o w).
Proof.
  intros Hwf Hthis.
  destruct (requestRepaint_walk_enough (S this) this w Hwf Hthis) as [w1 Hw1];
    [lia|].
  unfold requestRepaint, rootContext.
  rewrite requestRepaint_walk_rootContext in Hw1 |- *.
  destruct (rootContext_walk (S this) this w) as [r|] eqn:Hr; [|done].
  destruct (rootContext_walk_is_root _ _ _ _ Hr) as (o & Ho & Hp).
  exists r, o. simpl. by rewrite Ho.
Qed.

(** X10: requests are coalesced per tree.  Once a request from one context
    has gone through, a request from any context with the same root changes
    nothing: in particular no second callback is deferred before the frame
    arrives. *)
Theorem requestRepaint_coalesced this that r w w1 :
  rootContext this w = Some r → rootContext that w = Some r →
  requestRepaint this w = Some w1 →
  requestRepaint that w1 = Some w1.
Proof.
  unfold rootContext, requestRepaint. intros Hr1 Hr2 Hw1.
  rewrite requestRepaint_walk_rootContext, Hr1 in Hw1. simpl in Hw1.
  destruct (contexts w !! r) as [o|] eqn:Ho; [|done].
  simpl in Hw1. injection Hw1 as <-.
  rewrite requestRepaint_walk_rootContext.
  rewrite rootContext_walk_requested, Hr2 by done. simpl.
  destruct (requested_pending r o w Ho) as (o' & -> & Hp). simpl.
  unfold requested at 1. by rewrite Hp.
Qed.

Lemma rootContext_walk_ext fuel this w w' :
  (∀ x, parentContext_ <$> contexts w' !! x =
        parentContext_ <$> contexts w !! x) →
  rootContext_walk fuel this w' = rootContext_walk fuel this w.
Proof.
  intros Hext. revert this.
  induction fuel as [|fuel IH]; intros this; [done|].
  simpl. specialize (Hext this).
  destruct (contexts w' !! this) as [o'|], (contexts w !! this) as [o|];
    simpl in Hext; try done.
  injection Hext as ->. destruct (parentContext_ o); [apply IH|done].
Qed.

(** X11: request, frame, request.  When the root of a tree has no request
    pending, a request defers one callback for the root; the callback
    clears the flag and repaints, adding the calls of [repaint] to the log
    of the root's rendering context; a request made after that defers a
    callback again. *)
Theorem request_frame_request this r o w :
  rootContext this w = Some r → contexts w !! r = Some o →
  repaintPending_ o = false →
  ∃ w1 w3,
    requestRepaint this w = Some w1 ∧
    nextFrame w1 = nextFrame w ++ [r] ∧
    let w2 := repaintRequested_ canvasWidth canvasHeight getCanvasPixelRatio
                repaintInternal r w1 in
    canvasLog w2 =
      canvasLog w ++
      map (pair (canvas_ o))
          (repaint_ops canvasWidth canvasHeight getCanvasPixelRatio
             repaintInternal r o) ∧
    requestRepaint this w2 = Some w3 ∧
    nextFrame w3 = nextFrame w ++ [r; r].
Proof.
  intros Hr Ho Hp.
  destruct (rootContext_walk_is_root _ _ _ _ Hr) as (o0 & Ho0 & Hroot).
  rewrite Ho in Ho0. injection Ho0 as <-.
  set (w1 := mkPaintWorld (<[r := set_repaintPending true o]> (contexts w))
               (nextRef w) (nextFrame w ++ [r]) (canvasLog w)).
  assert (H1 : requestRepaint this w = Some w1).
  { unfold requestRepaint. rewrite requestRepaint_walk_rootContext.
    unfold rootContext in Hr. rewrite Hr. simpl. rewrite Ho. simpl.
    unfold requested. by rewrite Hp. }
  set (o2 := set_repaintPending false (set_repaintPending true o)).
  set (w2 := mkPaintWorld (<[r := o2]> (contexts w1)) (nextRef w)
               (nextFrame w ++ [r])
               (canvasLog w ++
                map (pair (canvas_ o))
                    (repaint_ops canvasWidth canvasHeight getCanvasPixelRatio
                       repaintInternal r o))).
  assert (H2 : repaintRequested_ canvasWidth canvasHeight getCanvasPixelRatio
                 repaintInternal r w1 = w2).
  { unfold repaintRequested_, w1. simpl. rewrite lookup_insert_eq. simpl.
    rewrite Hroot. rewrite bool_decide_false by (intros Hn; by apply Hn).
    simpl. unfold repaint. simpl. rewrite lookup_insert_eq. done. }
  exists w1, (mkPaintWorld (<[r := set_repaintPending true o2]> (contexts w2))
                (nextRef w) (nextFrame w2 ++ [r]) (canvasLog w2)).
  split; [done|]. split; [done|]. cbv zeta. rewrite H2.
  split; [done|]. split.
  - unfold requestRepaint. rewrite requestRepaint_walk_rootContext.
    rewrite (rootContext_walk_ext _ _ w w2).
    + unfold rootContext in Hr. rewrite Hr. simpl.
      rewrite lookup_insert_eq. done.
    + intros x. simpl. destruct (decide (r = x)) as [->|Hne].
      * by rewrite lookup_insert_eq, Ho.
      * by rewrite !lookup_insert_ne.
  - simpl. by rewrite <- app_assoc.
Qed.

Lemma canvasStateDepth_app (d : nat) (a b : list (CanvasOp N)) :
  canvasStateDepth d (a ++ b) =
  d' ← canvasStateDepth d a; canvasStateDepth d' b.
Proof.
  revert d. induction a as [|op a IH]; intros d; [done|].
  destruct op; simpl; try apply IH.
  destruct d; [done|apply IH].
Qed.

Lemma canvasStateDepth_children (d : nat) (wd ht : N) (cs : list nat) :
  canvasStateDepth d
    (flat_map (λ c, [op_save; op_repaintInternal c wd ht; op_restore]) cs) =
  Some d.
Proof. induction cs as [|c cs IH]; [done|]. simpl. apply IH. Qed.

(** X12: whatever its outcome, [repaint] leaves the saved-state stack of
    the rendering context as it found it: every [save] it makes is matched
    by a later [restore], and it never restores a state it has not saved. *)
Theorem repaint_balances_save_restore (d : nat) this o :
  canvasStateDepth d
    (repaint_ops canvasWidth canvasHeight getCanvasPixelRatio repaintInternal
       this o) = Some d.
Proof.
  unfold repaint_ops.
  destruct (parentContext_ o); [done|].
  destruct (ready_ o); [|done]. simpl.
  destruct (num_leb _ num_one); [done|]. simpl.
  destruct (repaintInternal this _ _); [done|].
  apply canvasStateDepth_children.
Qed.

Lemma paintedContexts_children (wd ht : N) (cs : list nat) :
  paintedContexts
    (flat_map (λ c, [op_save; op_repaintInternal c wd ht; op_restore]) cs) =
  cs.
Proof.
  induction cs as [|c cs IH]; [done|].
  transitivity
    (c :: paintedContexts
            (flat_map (λ c, [op_save; op_repaintInternal c wd ht; op_restore])
                      cs)); [reflexivity|].
  by rewrite IH.
Qed.

Lemma repaint_ops_drawing this o :
  parentContext_ o = None → ready_ o = true →
  num_leb (num_div (canvasHeight (canvas_ o))
                   (getCanvasPixelRatio (canvas_ o))) num_one = false →
  repaint_ops canvasWidth canvasHeight getCanvasPixelRatio repaintInternal
    this o =
  let width := num_div (canvasWidth (canvas_ o))
                       (getCanvasPixelRatio (canvas_ o)) in
  let height := num_div (canvasHeight (canvas_ o))
                        (getCanvasPixelRatio (canvas_ o)) in
  op_reset (getCanvasPixelRatio (canvas_ o)) :: op_save ::
  op_clearRect num_zero num_zero width height ::
  op_repaintInternal this width height :: op_restore ::
  if repaintInternal this width height then []
  else flat_map (λ c, [op_save; op_repaintInternal c width height;
                       op_restore]) (childContexts_ o).
Proof.
  intros Hp Hr Hh. unfold repaint_ops. rewrite Hp, Hr. simpl.
  by rewrite Hh.
Qed.

Lemma repaint_ops_painted this o :
  parentContext_ o = None → ready_ o = true →
  num_leb (num_div (canvasHeight (canvas_ o))
                   (getCanvasPixelRatio (canvas_ o))) num_one = false →
  paintedContexts
    (repaint_ops canvasWidth canvasHeight getCanvasPixelRatio repaintInternal
       this o) =
  this :: if repaintInternal this
               (num_div (canvasWidth (canvas_ o))
                        (getCanvasPixelRatio (canvas_ o)))
               (num_div (canvasHeight (canvas_ o))
                        (getCanvasPixelRatio (canvas_ o)))
          then [] else childContexts_ o.
Proof.
  intros Hp Hr Hh. rewrite repaint_ops_drawing by done. cbv zeta.
  destruct (repaintInternal this _ _); [reflexivity|].
  set (wd := num_div (canvasWidth (canvas_ o))
                     (getCanvasPixelRatio (canvas_ o))).
  set (ht := num_div (canvasHeight (canvas_ o))
                     (getCanvasPixelRatio (canvas_ o))).
  rewrite <- (paintedContexts_children wd ht (childContexts_ o)) at 2.
  reflexivity.
Qed.

(** X13: who gets painted.  [repaint] calls [repaintInternal] on the
    context itself and on its direct children only, whatever the children's
    own flags and whatever hangs below them; on a ready root whose canvas is
    not too small, the root is painted first and then, unless the root's
    [repaintInternal] asked to prevent it, every child once, in the order
    the children were created. *)
Theorem repaint_paints_root_then_children this o :
  let width := num_div (canvasWidth (canvas_ o))
                       (getCanvasPixelRatio (canvas_ o)) in
  let height := num_div (canvasHeight (canvas_ o))
                        (getCanvasPixelRatio (canvas_ o)) in
  let painted :=
    paintedContexts
      (repaint_ops canvasWidth canvasHeight getCanvasPixelRatio
         repaintInternal this o) in
  (∀ c, c ∈ painted → c = this ∨ c ∈ childContexts_ o) ∧
  (parentContext_ o = None → ready_ o = true →
   num_leb height num_one = false →
   painted = this :: if repaintInternal this width height then []
                     else childContexts_ o).
Proof.
  intros width height painted. subst painted width height.
  split; [|apply repaint_ops_painted].
  intros c.
  destruct (parentContext_ o) eqn:Hp.
  { unfold repaint_ops. rewrite Hp. intros Hc. by apply elem_of_nil in Hc. }
  destruct (ready_ o) eqn:Hr.
  2:{ unfold repaint_ops. rewrite Hp, Hr. intros Hc.
      by apply elem_of_nil in Hc. }
  destruct (num_leb (num_div (canvasHeight (canvas_ o))
                             (getCanvasPixelRatio (canvas_ o))) num_one)
    eqn:Hh.
  { unfold repaint_ops. rewrite Hp, Hr. simpl. rewrite Hh. intros Hc.
    by apply elem_of_nil in Hc. }
  rewrite repaint_ops_painted by done.
  intros Hc. apply elem_of_cons in Hc as [->|Hc]; [by left|].
  destruct (repaintInternal this _ _);
    [by apply elem_of_nil in Hc | by right].
Qed.

(** X14: a context that is not ready draws nothing.  After
    [setReady(false)], neither a direct [repaint] nor the frame callback
    adds any call to the canvas log (the callback still clears a pending
    request of a root). *)
Theorem not_ready_draws_nothing this o w :
  contexts w !! this = Some o →
  ∃ w1, setReady false this w = Some w1 ∧
        nextFrame w1 = nextFrame w ∧
        canvasLog (repaint canvasWidth canvasHeight getCanvasPixelRatio
                     repaintInternal this w1) = canvasLog w ∧
        canvasLog (repaintRequested_ canvasWidth canvasHeight
                     getCanvasPixelRatio repaintInternal this w1) =
          canvasLog w.
Proof.
  intros Ho. eexists. split; [reflexivity|]. split; [done|].
  unfold repaintRequested_, repaint. simpl.
  rewrite !lookup_alter_eq, Ho. simpl.
  assert (Hops : ∀ v, repaint_ops canvasWidth canvasHeight getCanvasPixelRatio
                   repaintInternal this
                   (set_repaintPending v (set_ready false o)) = []).
  { intros v. unfold repaint_ops. simpl. by destruct (parentContext_ o). }
  split.
  - pose proof (Hops (repaintPending_ o)) as Hn. unfold repaint_ops in *.
    simpl in *. rewrite Hn. simpl. apply app_nil_r.
  - destruct (bool_decide (parentContext_ o ≠ None) ||
              negb (repaintPending_ o)); [done|].
    simpl. rewrite lookup_insert_eq. rewrite (Hops false). simpl.
    apply app_nil_r.
Qed.

Lemma rootContext_walk_fuel fuel1 fuel2 this w :
  paintWorld_wf w → this < fuel1 → this < fuel2 →
  rootContext_walk fuel1 this w = rootContext_walk fuel2 this w.
Proof.
  intros Hwf. revert fuel2 this.
  induction fuel1 as [|fuel1 IH]; intros fuel2 this H1 H2; [lia|].
  destruct fuel2 as [|fuel2]; [lia|]. simpl.
  destruct (contexts w !! this) as [o|] eqn:Ho; [|done].
  destruct (parentContext_ o) as [p|] eqn:Hp; [|done].
  destruct (Hwf this o Ho) as [_ Hpar].
  destruct (Hpar p Hp) as [Hlt _].
  apply IH; lia.
Qed.

Lemma rootContext_walk_S fuel this w :
  rootContext_walk (S fuel) this w =
  match contexts w !! this with
  | None => None
  | Some o =>
      match parentContext_ o with
      | Some p => rootContext_walk fuel p w
      | None => Some this
      end
  end.
Proof. reflexivity. Qed.

Lemma new_PaintContext_fresh (canvas : nat) (opt_parentContext : option nat) w :
  paintWorld_wf w →
  (∀ p, opt_parentContext = Some p → is_Some (contexts w !! p)) →
  contexts w !! nextRef w = None ∧
  (∀ p, opt_parentContext = Some p → p ≠ nextRef w) ∧
  contexts (snd (new_PaintContext canvas opt_parentContext w)) !! nextRef w =
    Some (mkPaintContext canvas opt_parentContext [] false true).
Proof.
  intros Hwf Hpar.
  assert (Hfresh : contexts w !! nextRef w = None).
  { destruct (contexts w !! nextRef w) as [o|] eqn:Ho; [|done].
    destruct (Hwf _ _ Ho) as [Hlt _]. lia. }
  assert (Hne : ∀ p, opt_parentContext = Some p → p ≠ nextRef w).
  { intros p Hp ->. destruct (Hpar _ Hp) as [o Ho]. congruence. }
  split; [done|]. split; [done|]. simpl.
  destruct opt_parentContext as [p|].
  - rewrite lookup_alter_ne by (by apply Hne).
    by rewrite lookup_insert_eq.
  - by rewrite lookup_insert_eq.
Qed.

Lemma new_PaintContext_keeps_wf (canvas : nat)
    (opt_parentContext : option nat) w :
  paintWorld_wf w →
  (∀ p, opt_parentContext = Some p → is_Some (contexts w !! p)) →
  paintWorld_wf (snd (new_PaintContext canvas opt_parentContext w)).
Proof.
  intros Hwf Hpar.
  destruct (new_PaintContext_fresh canvas opt_parentContext w Hwf Hpar)
    as (Hfresh & Hne & Hthis).
  set (w' := snd (new_PaintContext canvas opt_parentContext w)) in *.
  assert (Hold : ∀ c o', c ≠ nextRef w → contexts w' !! c = Some o' →
            ∃ o, contexts w !! c = Some o ∧
                 parentContext_ o' = parentContext_ o).
  { intros c o' Hc. subst w'. simpl.
    destruct opt_parentContext as [p|].
    - rewrite lookup_alter. case_decide as Hpc.
      + subst c. rewrite lookup_insert_ne by done.
        destruct (contexts w !! p) as [o|]; [|done]. simpl.
        intros [= <-]. by exists o.
      + rewrite lookup_insert_ne by done. intros Ho'. by exists o'.
    - rewrite lookup_insert_ne by done. intros Ho'. by exists o'. }
  assert (Hkeep : ∀ c, is_Some (contexts w !! c) →
                       is_Some (contexts w' !! c)).
  { intros c [o Ho]. subst w'. simpl.
    assert (c ≠ nextRef w) by (intros ->; congruence).
    destruct opt_parentContext as [p|].
    - rewrite lookup_alter. case_decide.
      + subst c. rewrite lookup_insert_ne, Ho by done. by eexists.
      + rewrite lookup_insert_ne, Ho by done. by eexists.
    - rewrite lookup_insert_ne, Ho by done. by eexists. }
  intros c o' Ho'. destruct (decide (c = nextRef w)) as [->|Hc].
  - rewrite Hthis in Ho'. injection Ho' as <-. simpl.
    split; [lia|].
    intros p Hp. destruct (Hpar _ Hp) as [o Ho].
    destruct (Hwf _ _ Ho) as [Hlt _].
    split; [exact Hlt|]. apply Hkeep. by exists o.
  - destruct (Hold c o' Hc Ho') as (o & Ho & Heq).
    destruct (Hwf _ _ Ho) as [Hlt Hp].
    split; [subst w'; simpl; lia|].
    intros p. rewrite Heq. intros Hpo.
    destruct (Hp p Hpo) as [Hpc Hsome].
    split; [done|by apply Hkeep].
Qed.

(** X15: the constructor keeps the store well formed.  The new context
    starts ready, with no request pending and no children, and is appended
    to its parent's children; it belongs to its parent's tree, so its
    requests for a repaint go to the parent's root. *)
Theorem new_PaintContext_wf (canvas : nat) (opt_parentContext : option nat) w :
  paintWorld_wf w →
  (∀ p, opt_parentContext = Some p → is_Some (contexts w !! p)) →
  let this := fst (new_PaintContext canvas opt_parentContext w) in
  let w' := snd (new_PaintContext canvas opt_parentContext w) in
  paintWorld_wf w' ∧
  contexts w' !! this =
    Some (mkPaintContext canvas opt_parentContext [] false true) ∧
  (∀ p o, opt_parentContext = Some p → contexts w !! p = Some o →
          contexts w' !! p = Some (push_child this o) ∧
          rootContext this w' = rootContext p w').
Proof.
  intros Hwf Hpar this w'.
  destruct (new_PaintContext_fresh canvas opt_parentContext w Hwf Hpar)
    as (Hfresh & Hne & Hthis).
  pose proof (new_PaintContext_keeps_wf canvas opt_parentContext w Hwf Hpar)
    as Hwf'.
  fold w' in Hthis, Hwf'. change (nextRef w) with this in Hthis.
  split; [done|]. split; [done|].
  intros p o Hp Ho. split.
  - subst w' this. simpl. rewrite Hp.
    rewrite lookup_alter_eq, lookup_insert_ne, Ho; [done|].
    intros Heq. by apply (Hne p Hp).
  - unfold rootContext. rewrite (rootContext_walk_S this this w').
    rewrite Hthis. cbn [parentContext_]. rewrite Hp.
    destruct (Hwf _ _ Ho) as [Hlt _].
    apply rootContext_walk_fuel; [exact Hwf' | exact Hlt | lia].
Qed.

Lemma paintWorld_wf_alter (f : PaintContext → PaintContext) this w :
  (∀ o, parentContext_ (f o) = parentContext_ o) →
  paintWorld_wf w →
  paintWorld_wf (set_contexts (alter f this (contexts w)) w).
Proof.
  intros Hf Hwf c o'. simpl. rewrite lookup_alter. intros Ho'.
  assert (∃ o, contexts w !! c = Some o ∧
               parentContext_ o' = parentContext_ o) as (o & Ho & Heq).
  { case_decide as Hc; [subst c|by exists o'].
    destruct (contexts w !! this) as [o|]; simpl in Ho'; [|done].
    injection Ho' as <-. exists o. by rewrite Hf. }
  clear Ho'. destruct (Hwf c o Ho) as [Hlt Hpar]. split; [done|].
  intros p. rewrite Heq. intros Hp.
  destruct (Hpar p Hp) as [Hpc [op Hop]]. split; [done|].
  rewrite lookup_alter. case_decide as Hc; [subst p|]; rewrite Hop;
    by eexists.
Qed.

(** X17: [setReady(true)] asks for a repaint.  In a well-formed store it
    marks the context ready and leaves the root of its tree with a request
    pending. *)
Theorem setReady_true_requests this w :
  paintWorld_wf w → is_Some (contexts w !! this) →
  ∃ w1 r o1,
    setReady true this w = Some w1 ∧
    rootContext this w = Some r ∧
    contexts w1 !! r = Some o1 ∧ repaintPending_ o1 = true ∧
    ready_ <$> contexts w1 !! this = Some true.
Proof.
  intros Hwf [o Ho]. unfold setReady.
  set (w0 := set_contexts (alter (set_ready true) this (contexts w)) w).
  assert (Hwf0 : paintWorld_wf w0) by (by apply paintWorld_wf_alter).
  assert (Hthis0 : contexts w0 !! this = Some (set_ready true o)).
  { unfold w0. simpl. by rewrite lookup_alter_eq, Ho. }
  assert (Hroot0 : rootContext_walk (S this) this w0 =
                   rootContext_walk (S this) this w).
  { apply rootContext_walk_ext. intros x. unfold w0. simpl.
    rewrite lookup_alter. case_decide as Hx; [subst x|done].
    by rewrite Ho. }
  clearbody w0.
  destruct (requestRepaint_walk_enough (S this) this w0 Hwf0) as [w1 Hw1];
    [by eexists | lia |].
  unfold requestRepaint. rewrite Hw1.
  rewrite requestRepaint_walk_rootContext in Hw1.
  destruct (rootContext_walk (S this) this w0) as [r|] eqn:Hr; [|done].
  simpl in Hw1.
  destruct (contexts w0 !! r) as [o0|] eqn:Ho0; simpl in Hw1; [|done].
  injection Hw1 as <-.
  destruct (requested_pending r o0 w0 Ho0) as (o1 & Ho1 & Hp1).
  exists (requested r o0 w0), r, o1.
  split; [done|]. split; [unfold rootContext; by rewrite <- Hroot0|].
  split; [done|]. split; [done|].
  unfold requested. destruct (repaintPending_ o0); [by rewrite Hthis0|].
  simpl. destruct (decide (r = this)) as [->|Hne].
  - rewrite lookup_insert_eq. simpl.
    rewrite Hthis0 in Ho0. by injection Ho0 as <-.
  - by rewrite lookup_insert_ne, Hthis0.
Qed.

Lemma emptyPaintWorld_wf : paintWorld_wf (emptyPaintWorld (N := N)).
Proof. intros c o Ho. simpl in Ho. by rewrite lookup_empty in Ho. Qed.

End PaintContextFacts.

(** ** Concrete runs of the further properties *)

Lemma in_order_batch_defers_nothing_witness :
  let st := (emptyHeap, beginInserting freshIndex) in
  let es := [enterA; otherZoneLeaf; enterB; leaveB; leaveA] in
  pendingOutOfOrderEvents_ (snd (insertEvents es st)) = [] ∧
  fst (endInserting (insertEvents es st)) = fst (insertEvents es st).
Proof.
  pose proof (in_order_batch_defers_nothing
                [enterA; otherZoneLeaf; enterB; leaveB; leaveA]
                (emptyHeap, beginInserting freshIndex) eq_refl) as [Hp He].
  split; [exact Hp | exact (He eq_refl)].
Defined.

Lemma batch_writes_only_handled_events_witness :
  Event_scope (fst (runBatch [enterA; enterB; leaveAt2]
                      (emptyHeap, freshIndex))) leafAt3 =
  Event_scope emptyHeap leafAt3.
Proof.
  apply (batch_writes_only_handled_events [enterA; enterB; leaveAt2]
           (emptyHeap, freshIndex) leafAt3).
  intros Hin. vm_compute in Hin.
  repeat (apply elem_of_cons in Hin as [Hin|Hin]; [discriminate Hin|]).
  by apply elem_of_nil in Hin.
Defined.

Lemma insertEvent_touches_cursor_and_own_scope_witness :
  let st := insertEvents [enterA; enterB]
              (emptyHeap, beginInserting freshIndex) in
  getScope (fst (insertEvent leaveB st)) 10 = getScope (fst st) 10.
Proof.
  apply (insertEvent_touches_cursor_and_own_scope leaveB
           (insertEvents [enterA; enterB]
              (emptyHeap, beginInserting freshIndex)) 10).
  - intros H. vm_compute in H. discriminate H.
  - intros H. discriminate H.
Defined.

Lemma deferred_leave_does_not_walk_up_witness :
  snd (fold_left (endInserting_step twoLeavesIndex) ([enterCAt3] ++ [leaveA])
         (emptyHeap, None)) = None ∧
  scopes (fst (endInserting (emptyHeap, twoLeavesIndex))) =
    scopes (fst (fold_left (endInserting_step twoLeavesIndex)
                   ([enterCAt3] ++ [leaveA]) (emptyHeap, None))) ∧
  Event_scope (fst (endInserting (emptyHeap, twoLeavesIndex))) leaveAt2 = None.
Proof.
  exact (deferred_leave_does_not_walk_up [enterCAt3] leaveA leaveAt2
           emptyHeap twoLeavesIndex eq_refl eq_refl eq_refl eq_refl eq_refl).
Defined.

Lemma deferred_scope_run_attached_witness :
  let h' := fst (endInserting lateScopeBatch) in
  EventList_findEnclosingScope (fst lateScopeBatch)
    (base (snd lateScopeBatch)) (time enterCAt3) = Some 10 ∧
  parent_ (getScope h' 12) = Some 10 ∧
  children_ (getScope h' 10) =
    children_ (getScope (fst lateScopeBatch) 10) ++ [12] ∧
  (∀ x, x ∈ [leafAt5] ++ [leaveB] → Event_scope h' x = Some 12) ∧
  leaveEvent_ (getScope h' 12) = Some leaveB.
Proof.
  split; [reflexivity|].
  refine (deferred_scope_run_attached [] [leafAt5] enterCAt3 leaveB 12 10
            (fst lateScopeBatch) (snd lateScopeBatch) (fst lateScopeBatch)
            None eq_refl eq_refl eq_refl eq_refl _ eq_refl eq_refl).
  constructor; [|constructor]. split; [reflexivity|]. simpl. lia.
Defined.

Lemma cursor_realizes_explicit_stack_witness :
  let st' := insertEvents [enterA; enterB; leaveB; leaveA]
               (emptyHeap, beginInserting freshIndex) in
  currentScope_ (snd st') =
    head (explicitStack_run 7 [] [enterA; enterB; leaveB; leaveA]) ∧
  ∀ s l, (s, l) ∈ explicitStack_leaves 7 []
                    [enterA; enterB; leaveB; leaveA] →
         leaveEvent_ (getScope (fst st') s) = Some l.
Proof.
  apply (cursor_realizes_explicit_stack [enterA; enterB; leaveB; leaveA]
           emptyHeap (beginInserting freshIndex)).
  - repeat (constructor; [reflexivity|]). constructor.
  - reflexivity.
  - reflexivity.
  - apply NoDup_cons. split.
    + intros H. apply list_elem_of_singleton in H. discriminate H.
    + apply NoDup_singleton.
  - intros s _. unfold getScope. simpl. by rewrite lookup_empty.
Defined.

Lemma rootOnly_wf : paintWorld_wf rootOnly.
Proof.
  apply (new_PaintContext_keeps_wf 0 None emptyPaintWorld);
    [apply emptyPaintWorld_wf | done].
Qed.

Lemma rootAndChild_wf : paintWorld_wf rootAndChild.
Proof.
  apply (new_PaintContext_keeps_wf 0 (Some 0) rootOnly); [apply rootOnly_wf|].
  intros p [= <-]. by eexists.
Qed.

Lemma paintTree_wf : paintWorld_wf paintTree.
Proof.
  apply (new_PaintContext_keeps_wf 0 (Some 1) rootAndChild);
    [apply rootAndChild_wf|].
  intros p [= <-]. by eexists.
Qed.

Lemma requestRepaint_reaches_root_witness :
  ∃ r o, rootContext 2 paintTree = Some r ∧
         contexts paintTree !! r = Some o ∧ parentContext_ o = None ∧
         requestRepaint 2 paintTree = Some (requested r o paintTree).
Proof.
  apply (requestRepaint_reaches_root 2 paintTree paintTree_wf).
  by eexists.
Defined.

Lemma requestRepaint_coalesced_witness :
  ∃ w1, requestRepaint 2 paintTree = Some w1 ∧
        nextFrame w1 = [0] ∧
        requestRepaint 1 w1 = Some w1.
Proof.
  eexists. split; [reflexivity|]. split; [reflexivity|].
  apply (requestRepaint_coalesced 2 1 0 paintTree); reflexivity.
Defined.

Lemma request_frame_request_witness :
  ∃ w1 w3,
    requestRepaint 2 paintTree = Some w1 ∧
    nextFrame w1 = [] ++ [0] ∧
    let w2 := repaintRequested_ sampleWidth sampleHeight samplePixelRatio
                sampleRepaintInternal 0 w1 in
    canvasLog w2 =
      [] ++ map (pair 0)
              (repaint_ops sampleWidth sampleHeight samplePixelRatio
                 sampleRepaintInternal 0
                 (mkPaintContext 0 None [1] false true)) ∧
    requestRepaint 2 w2 = Some w3 ∧
    nextFrame w3 = [] ++ [0; 0].
Proof.
  exact (request_frame_request sampleWidth sampleHeight samplePixelRatio
           sampleRepaintInternal 2 0 (mkPaintContext 0 None [1] false true)
           paintTree eq_refl eq_refl eq_refl).
Defined.

Lemma repaint_paints_root_then_children_witness :
  paintedContexts
    (repaint_ops sampleWidth sampleHeight samplePixelRatio
       sampleRepaintInternal 0 (mkPaintContext 0 None [1] false true)) =
  [0; 1].
Proof.
  exact (proj2 (repaint_paints_root_then_children sampleWidth sampleHeight
                  samplePixelRatio sampleRepaintInternal 0
                  (mkPaintContext 0 None [1] false true))
           eq_refl eq_refl eq_refl).
Defined.

Lemma not_ready_draws_nothing_witness :
  ∃ w1, setReady false 0 paintTree = Some w1 ∧
        nextFrame w1 = nextFrame paintTree ∧
        canvasLog (repaint sampleWidth sampleHeight samplePixelRatio
                     sampleRepaintInternal 0 w1) = canvasLog paintTree ∧
        canvasLog (repaintRequested_ sampleWidth sampleHeight
                     samplePixelRatio sampleRepaintInternal 0 w1) =
          canvasLog paintTree.
Proof.
  exact (not_ready_draws_nothing sampleWidth sampleHeight samplePixelRatio
           sampleRepaintInternal 0 (mkPaintContext 0 None [1] false true)
           paintTree eq_refl).
Defined.

Lemma new_PaintContext_wf_witness :
  paintWorld_wf rootAndChild ∧
  contexts rootAndChild !! 1 = Some (mkPaintContext 0 (Some 0) [] false true) ∧
  (∀ p o, Some 0 = Some p → contexts rootOnly !! p = Some o →
          contexts rootAndChild !! p = Some (push_child 1 o) ∧
          rootContext 1 rootAndChild = rootContext p rootAndChild).
Proof.
  refine (new_PaintContext_wf 0 (Some 0) rootOnly rootOnly_wf _).
  intros p [= <-]. by eexists.
Defined.

Lemma open_scope_not_continued_witness :
  let st1 := runBatch [enterA] (emptyHeap, freshIndex) in
  let st2 := insertEvent enterB (fst st1, beginInserting (snd st1)) in
  fst st2 = fst st1 ∧
  currentScope_ (snd st2) = Some 11 ∧
  pendingOutOfOrderEvents_ (snd st2) = [].
Proof.
  refine (open_scope_not_continued [enterA] enterB 11 (emptyHeap, freshIndex)
            eq_refl eq_refl _).
  vm_compute. discriminate.
Defined.

Lemma setReady_true_requests_witness :
  ∃ w1 r o1,
    setReady true 2 paintTree = Some w1 ∧
    rootContext 2 paintTree = Some r ∧
    contexts w1 !! r = Some o1 ∧ repaintPending_ o1 = true ∧
    ready_ <$> contexts w1 !! 2 = Some true.
Proof.
  apply (setReady_true_requests 2 paintTree paintTree_wf).
  by eexists.
Defined.
